(** * Expression trees and property enforcement of the terrier optimizer

    A shallow embedding of
    - [parser/expression/abstract_expression.h]  (class [AbstractExpression]),
    - [parser/expression/operator_expression.h]  (class [OperatorExpression]),
    - [parser/expression_util.h]                 (class [ExpressionUtil]),
    - [optimizer/property_enforcer.cpp]          (class [PropertyEnforcer]).

    Conventions.  A C++ pointer to an expression ([std::unique_ptr],
    [ManagedPointer] or a raw pointer) is an [option]: [None] is the null
    pointer.  A function whose C++ body can dereference a null pointer, index
    out of range or fail a [TERRIER_ASSERT] returns a [result]; the fault
    aborts the computation.  [int] and [unsigned] values are integers in [Z]
    and [N] with the conversions between them written out. *)

From Stdlib Require Import ZArith Lia.
From stdpp Require Import base option list strings gmap.

Open Scope string_scope.
Open Scope list_scope.
Open Scope Z_scope.

(** ** Faults and the error monad *)

Inductive fault : Type :=
| NullDereference
| OutOfBounds
| SignedOverflow
| AssertionFailure (msg : string).

Inductive result (A : Type) : Type :=
| Ok (a : A)
| Fatal (f : fault).
Arguments Ok {A} a.
Arguments Fatal {A} f.

Global Instance result_ret : MRet result := λ A a, Ok a.
Global Instance result_bind : MBind result := λ A B k m,
  match m with Ok a => k a | Fatal f => Fatal f end.
Global Instance result_fmap : FMap result := λ A B g m,
  match m with Ok a => Ok (g a) | Fatal f => Fatal f end.

(** [*p] for a pointer [p]. *)
Definition deref {A} (p : option A) : result A :=
  match p with Some a => Ok a | None => Fatal NullDereference end.

(** [TERRIER_ASSERT(cond, msg)]. *)
Definition TERRIER_ASSERT (cond : bool) (msg : string) : result unit :=
  if cond then Ok tt else Fatal (AssertionFailure msg).

(** A left-to-right loop that threads an accumulator and stops at the first
    fault. *)
Definition foldlM {A B} (f : B → A → result B) : list A → B → result B :=
  fix go l b :=
    match l with
    | [] => Ok b
    | x :: l' => b' ← f b x; go l' b'
    end.

(** ** Machine integers *)

Definition INT_MAX : Z := 2147483647.
Definition INT_MIN : Z := -2147483648.

(** Conversion of an unsigned value to [int] ([static_cast<int>]): reduction
    modulo 2^32 into the signed range. *)
Definition static_cast_int (n : Z) : Z :=
  (n + 2147483648) `mod` 4294967296 - 2147483648.

(** ** Enumerations *)

(** Modelled from the spec: [parser/expression_defs.h], which declares
    [ExpressionType], is not among the sources.  The enumerators are the ones
    the sources name, with the remaining comparison, conjunction and value
    kinds listed in the data model of the specification. *)
Inductive ExpressionType : Type :=
| INVALID
| OPERATOR_UNARY_MINUS | OPERATOR_PLUS | OPERATOR_MINUS | OPERATOR_MULTIPLY
| OPERATOR_DIVIDE | OPERATOR_CONCAT | OPERATOR_MOD | OPERATOR_CAST
| OPERATOR_NOT | OPERATOR_IS_NULL | OPERATOR_IS_NOT_NULL | OPERATOR_EXISTS
| COMPARE_EQUAL | COMPARE_NOT_EQUAL
| COMPARE_LESS_THAN | COMPARE_GREATER_THAN
| COMPARE_LESS_THAN_OR_EQUAL_TO | COMPARE_GREATER_THAN_OR_EQUAL_TO
| CONJUNCTION_AND | CONJUNCTION_OR
| COLUMN_VALUE
| VALUE_CONSTANT | VALUE_PARAMETER | VALUE_TUPLE
| AGGREGATE_COUNT | AGGREGATE_SUM | AGGREGATE_MIN | AGGREGATE_MAX | AGGREGATE_AVG
| FUNCTION
| OPERATOR_CASE_EXPR.

Global Instance ExpressionType_eq_dec : EqDecision ExpressionType.
Proof. solve_decision. Defined.

(** Modelled from the spec: [type/type_id.h], which declares [type::TypeId],
    is not among the sources.  The value types form a fixed total order, the
    order of their underlying values, in which the decimal type is the
    ceiling of the numeric types and the boolean type lies below them. *)
Inductive TypeId : Type :=
| TYPE_INVALID | BOOLEAN | TINYINT | SMALLINT | INTEGER | BIGINT | DECIMAL
| TIMESTAMP | DATE | VARCHAR | VARBINARY.

Global Instance TypeId_eq_dec : EqDecision TypeId.
Proof. solve_decision. Defined.

Definition TypeId_underlying (t : TypeId) : Z :=
  match t with
  | TYPE_INVALID => 0 | BOOLEAN => 1 | TINYINT => 2 | SMALLINT => 3
  | INTEGER => 4 | BIGINT => 5 | DECIMAL => 6 | TIMESTAMP => 7 | DATE => 8
  | VARCHAR => 9 | VARBINARY => 10
  end.

(** [<] and [<=] on the scoped enumeration. *)
Definition TypeId_lt (a b : TypeId) : bool :=
  TypeId_underlying a <? TypeId_underlying b.
Definition TypeId_le (a b : TypeId) : bool :=
  TypeId_underlying a <=? TypeId_underlying b.

(** ** Expression nodes *)

(** The dynamic class of a node together with the members of that class the
    sources read, over the type [E] of expressions.  [OtherExpression] stands
    for the classes (operator, comparison, conjunction, constant, aggregate,
    function, parameter) of which only the base-class members are used. *)
Inductive ExpressionClass (E : Type) : Type :=
| OtherExpression
| ColumnValueExpression (table_name_ : string)
| DerivedValueExpression (tuple_idx_ value_idx_ : Z)
| CaseExpression (when_clauses_ : list (option E * option E))
                 (default_expr_ : option E).
Arguments OtherExpression {E}.
Arguments ColumnValueExpression {E} table_name_.
Arguments DerivedValueExpression {E} tuple_idx_ value_idx_.
Arguments CaseExpression {E} when_clauses_ default_expr_.

(** The members of [AbstractExpression], in the order of their declaration,
    followed by the state of the derived class. *)
#[warnings="-register-all"]
Inductive AbstractExpression : Type :=
  MkExpression {
    expression_type_ : ExpressionType;
    expression_name_ : string;
    alias_ : string;
    return_value_type_ : TypeId;
    depth_ : Z;
    has_subquery_ : bool;
    children_ : list (option AbstractExpression);
    class_ : ExpressionClass AbstractExpression
  }.

Abbreviation ExprPtr := (option AbstractExpression).

(** Induction over the children of a node. *)
Definition on_child (P : AbstractExpression → Prop) (c : ExprPtr) : Prop :=
  match c with Some x => P x | None => True end.

Section AbstractExpression_children_ind.
Variable P : AbstractExpression → Prop.
Hypothesis node : ∀ e, Forall (on_child P) (children_ e) → P e.

Fixpoint AbstractExpression_children_ind (e : AbstractExpression) : P e :=
  node e
    (match e as e0 return Forall (on_child P) (children_ e0) with
     | MkExpression _ _ _ _ _ _ cs _ =>
         (fix go (l : list ExprPtr) : Forall (on_child P) l :=
            match l with
            | [] => List.Forall_nil _
            | c :: l' =>
                List.Forall_cons _ c l'
                  (match c as c0 return on_child P c0 with
                   | Some y => AbstractExpression_children_ind y
                   | None => I
                   end)
                  (go l')
            end) cs
     end).
End AbstractExpression_children_ind.

(** The base-class constructor
    [AbstractExpression(expression_type, return_value_type, children)]:
    the name and the alias are empty, [depth_ = -1], [has_subquery_ = false]. *)
Definition AbstractExpression_new (expression_type : ExpressionType)
    (return_value_type : TypeId) (children : list ExprPtr)
    (cls : ExpressionClass AbstractExpression) : AbstractExpression :=
  MkExpression expression_type "" "" return_value_type (-1) false children cls.

Definition GetExpressionType (e : AbstractExpression) := expression_type_ e.
Definition GetReturnValueType (e : AbstractExpression) := return_value_type_ e.
Definition GetChildrenSize (e : AbstractExpression) : nat := length (children_ e).
Definition GetChildren (e : AbstractExpression) : list ExprPtr := children_ e.
Definition GetExpressionName (e : AbstractExpression) := expression_name_ e.
Definition GetAlias (e : AbstractExpression) := alias_ e.
Definition GetDepth (e : AbstractExpression) := depth_ e.
Definition HasSubquery (e : AbstractExpression) := has_subquery_ e.

(** [GetChild(index)]: the index is asserted to be in bounds. *)
Definition GetChild (e : AbstractExpression) (index : nat) : result ExprPtr :=
  _ ← TERRIER_ASSERT (bool_decide (index < length (children_ e))%nat)
        "Index must be in bounds.";
  match children_ e !! index with
  | Some c => Ok c
  | None => Fatal OutOfBounds
  end.

Definition SetExpressionName (e : AbstractExpression) (name : string) :=
  MkExpression (expression_type_ e) name (alias_ e) (return_value_type_ e)
    (depth_ e) (has_subquery_ e) (children_ e) (class_ e).
Definition SetExpressionType (e : AbstractExpression) (t : ExpressionType) :=
  MkExpression t (expression_name_ e) (alias_ e) (return_value_type_ e)
    (depth_ e) (has_subquery_ e) (children_ e) (class_ e).
Definition SetReturnValueType (e : AbstractExpression) (t : TypeId) :=
  MkExpression (expression_type_ e) (expression_name_ e) (alias_ e) t
    (depth_ e) (has_subquery_ e) (children_ e) (class_ e).
Definition SetDepth (e : AbstractExpression) (d : Z) :=
  MkExpression (expression_type_ e) (expression_name_ e) (alias_ e)
    (return_value_type_ e) d (has_subquery_ e) (children_ e) (class_ e).
Definition set_has_subquery (e : AbstractExpression) (b : bool) :=
  MkExpression (expression_type_ e) (expression_name_ e) (alias_ e)
    (return_value_type_ e) (depth_ e) b (children_ e) (class_ e).
Definition set_alias (e : AbstractExpression) (a : string) :=
  MkExpression (expression_type_ e) (expression_name_ e) a
    (return_value_type_ e) (depth_ e) (has_subquery_ e) (children_ e) (class_ e).
Definition set_children (e : AbstractExpression) (cs : list ExprPtr) :=
  MkExpression (expression_type_ e) (expression_name_ e) (alias_ e)
    (return_value_type_ e) (depth_ e) (has_subquery_ e) cs (class_ e).

Definition SetMutableStateForCopy (this copy_expr : AbstractExpression)
  : AbstractExpression :=
  let this := SetExpressionName this (GetExpressionName copy_expr) in
  let this := SetReturnValueType this (GetReturnValueType copy_expr) in
  let this := SetDepth this (GetDepth copy_expr) in
  let this := set_has_subquery this (HasSubquery copy_expr) in
  set_alias this (alias_ copy_expr).

(** [Copy()], after [OperatorExpression::Copy]: every child is copied (a null
    child is dereferenced), a node of the same class is constructed from the
    kind, the return type and the copies, and the mutable state is carried
    over.  The members of the derived class are carried over as they are. *)
Fixpoint Copy (this : AbstractExpression) : result AbstractExpression :=
  children ← mapM (λ child : ExprPtr,
                     match child with
                     | Some c => c' ← Copy c; Ok (Some c')
                     | None => Fatal NullDereference
                     end) (GetChildren this);
  let expr := AbstractExpression_new (GetExpressionType this)
                (GetReturnValueType this) children (class_ this) in
  Ok (SetMutableStateForCopy expr this).

(** The loop of [operator==] over the positions of the two child vectors,
    which have the same size; [last] is the value of the final comparison of
    the return types. *)
Definition children_equal (eq : AbstractExpression → AbstractExpression → result bool)
    (last : bool) : list ExprPtr → list ExprPtr → result bool :=
  fix loop l r :=
    match l with
    | [] => Ok last
    | x :: l' =>
        match r with
        | [] => Fatal OutOfBounds
        | y :: r' =>
            match x, y with
            | Some a, Some b =>
                e ← eq a b;
                if negb e then Ok false else loop l' r'
            | _, _ => Fatal NullDereference
            end
        end
    end.

(** [operator==] of the base class; [operator!=] is its negation.  The
    overrides of the derived classes are outside the sources: the children
    are compared by the base-class comparison as well. *)
Fixpoint operator_eq (this rhs : AbstractExpression) : result bool :=
  if negb (bool_decide (expression_type_ this = expression_type_ rhs)) then Ok false
  else if negb (bool_decide (alias_ this = alias_ rhs)) then Ok false
  else if negb (bool_decide (expression_name_ this = expression_name_ rhs)) then Ok false
  else if negb (bool_decide (depth_ this = depth_ rhs)) then Ok false
  else if negb (bool_decide (has_subquery_ this = has_subquery_ rhs)) then Ok false
  else if negb (bool_decide (length (children_ this) = length (children_ rhs))) then Ok false
  else
    children_equal (λ a b, operator_eq a b)
      (bool_decide (return_value_type_ this = return_value_type_ rhs))
      (children_ this) (children_ rhs).

Definition operator_ne (this rhs : AbstractExpression) : result bool :=
  negb <$> operator_eq this rhs.

(** [SetChild(index, expr)]: [index] is an [int]. *)
Definition SetChild (this : AbstractExpression) (index : Z) (expr : ExprPtr)
  : result AbstractExpression :=
  children ←
    (if index >=? static_cast_int (Z.of_nat (length (children_ this))) then
       if index + 1 >? INT_MAX then Fatal SignedOverflow
       else Ok (resize (Z.to_nat (index + 1)) None (children_ this))
     else Ok (children_ this));
  e ← deref expr;
  new_child ← Copy e;
  if (0 <=? index) && (index <? Z.of_nat (length children)) then
    Ok (set_children this (<[Z.to_nat index := Some new_child]> children))
  else Fatal OutOfBounds.

(** ** [OperatorExpression::DeriveReturnValueType] *)

(** [std::max_element(first, last, comp)]: the first largest element, or the
    end of the range when the range is empty.  The comparison dereferences the
    pointers it is given. *)
Fixpoint max_element_from {A} (comp : A → A → result bool) (largest : A)
    (l : list A) : result A :=
  match l with
  | [] => Ok largest
  | x :: l' =>
      c ← comp largest x;
      max_element_from comp (if c : bool then x else largest) l'
  end.

Definition max_element {A} (comp : A → A → result bool) (l : list A)
  : result (option A) :=
  match l with
  | [] => Ok None
  | x :: l' => Some <$> max_element_from comp x l'
  end.

Definition is_unary_logical (t : ExpressionType) : bool :=
  bool_decide (t = OPERATOR_NOT) || bool_decide (t = OPERATOR_IS_NULL) ||
  bool_decide (t = OPERATOR_IS_NOT_NULL) || bool_decide (t = OPERATOR_EXISTS).

(** The comparison passed to [std::max_element]. *)
Definition return_type_lt (t1 t2 : ExprPtr) : result bool :=
  a ← deref t1;
  b ← deref t2;
  Ok (TypeId_lt (GetReturnValueType a) (GetReturnValueType b)).

Definition DeriveReturnValueType (this : AbstractExpression)
  : result AbstractExpression :=
  if is_unary_logical (GetExpressionType this) then
    Ok (SetReturnValueType this BOOLEAN)
  else
    let children := GetChildren this in
    max_type_child ← max_element return_type_lt children;
    match max_type_child with
    | None => Fatal OutOfBounds
    | Some p =>
        c ← deref p;
        let type := GetReturnValueType c in
        _ ← TERRIER_ASSERT (TypeId_le type DECIMAL)
              "Invalid operand type in Operator Expression.";
        Ok (SetReturnValueType this type)
    end.

(** ** Hashing *)

(** [common/hash_util.h] is not among the sources: the hash of a value of
    each member type and the combination of two hashes are parameters. *)
Class HashUtil : Type := {
  hash_t : Type;
  Hash_ExpressionType : ExpressionType → hash_t;
  Hash_TypeId : TypeId → hash_t;
  Hash_string : string → hash_t;
  Hash_int : Z → hash_t;
  Hash_char : Z → hash_t;
  CombineHashes : hash_t → hash_t → hash_t
}.

(** [static_cast<char>(b)] for a [bool]. *)
Definition char_of_bool (b : bool) : Z := if b then 1 else 0.

(** The loop of [Hash] over the children: the hash of every child is
    combined into the running hash. *)
Definition Hash_children `{!HashUtil}
    (hash_of : AbstractExpression → result hash_t)
  : list ExprPtr → hash_t → result hash_t :=
  foldlM (λ hash (child : ExprPtr),
            match child with
            | Some c => h ← hash_of c; Ok (CombineHashes hash h)
            | None => Fatal NullDereference
            end).

(** [Hash()] of the base class, applied to the children as well. *)
Fixpoint Hash `{!HashUtil} (this : AbstractExpression) : result hash_t :=
  let hash := Hash_ExpressionType (expression_type_ this) in
  hash ← Hash_children (λ c, Hash c) (children_ this) hash;
  let hash := CombineHashes hash (Hash_TypeId (return_value_type_ this)) in
  let hash := CombineHashes hash (Hash_string (expression_name_ this)) in
  let hash := CombineHashes hash (Hash_string (alias_ this)) in
  let hash := CombineHashes hash (Hash_int (depth_ this)) in
  let hash := CombineHashes hash (Hash_char (char_of_bool (has_subquery_ this))) in
  Ok hash.

(** Two nodes agree on hashing when both hash to the same value. *)
Definition same_hash `{!HashUtil} (a b : AbstractExpression) : Prop :=
  ∃ h, Hash a = Ok h ∧ Hash b = Ok h.

(** ** [ExpressionUtil] *)

Definition IsAggregateExpression (type : ExpressionType) : bool :=
  match type with
  | AGGREGATE_COUNT | AGGREGATE_SUM | AGGREGATE_MIN | AGGREGATE_MAX
  | AGGREGATE_AVG => true
  | _ => false
  end.

Definition IsOperatorExpression (type : ExpressionType) : bool :=
  match type with
  | OPERATOR_PLUS | OPERATOR_MINUS | OPERATOR_MULTIPLY | OPERATOR_DIVIDE
  | OPERATOR_CONCAT | OPERATOR_MOD | OPERATOR_CAST | OPERATOR_NOT
  | OPERATOR_IS_NULL | OPERATOR_EXISTS | OPERATOR_UNARY_MINUS => true
  | _ => false
  end.

Definition ReverseComparisonExpressionType (type : ExpressionType)
  : ExpressionType :=
  match type with
  | COMPARE_GREATER_THAN => COMPARE_LESS_THAN_OR_EQUAL_TO
  | COMPARE_GREATER_THAN_OR_EQUAL_TO => COMPARE_LESS_THAN
  | COMPARE_LESS_THAN => COMPARE_GREATER_THAN_OR_EQUAL_TO
  | COMPARE_LESS_THAN_OR_EQUAL_TO => COMPARE_GREATER_THAN
  | _ => type
  end.

(** [optimizer/optimizer_defs.h] is not among the sources.  [ExprMap] is a
    map from expressions to offsets ([unsigned]) and [ExprSet] a set of
    expressions; how they hash and compare their keys is left to the
    parameters.  [count] is [1] when [find] succeeds and [0] otherwise. *)
Class OptimizerDefs : Type := {
  ExprMap : Type;
  ExprMap_find : ExprMap → AbstractExpression → option N;
  ExprSet : Type;
  ExprSet_new : ExprSet;
  ExprSet_insert : ExprSet → ExprPtr → result ExprSet;
  ExprSet_equal : ExprSet → ExprSet → result bool
}.

Definition ExprMap_count `{!OptimizerDefs} (m : ExprMap)
    (e : AbstractExpression) : N :=
  match ExprMap_find m e with Some _ => 1%N | None => 0%N end.

(** The numbers of children that are compatible with the arity of each kind
    of operator: a parameter, the overrides of [CopyWithChildren] being
    outside the sources. *)
Class ChildArity : Type := {
  arity_compatible : ExpressionType → nat → bool
}.

(** Modelled from the spec: the overrides of [CopyWithChildren] are not
    among the sources.  The copy has the kind, the return type and the
    annotations of the receiver and exactly the new children; it fails, fatally,
    when the number of children is incompatible with the arity of the
    operator. *)
Definition CopyWithChildren `{!ChildArity} (this : AbstractExpression)
    (children : list ExprPtr) : result AbstractExpression :=
  _ ← TERRIER_ASSERT
        (arity_compatible (GetExpressionType this) (length children))
        "child count incompatible with the arity of the operator";
  Ok (set_children this children).

(** Modelled from the spec: the class [DerivedValueExpression] is not among
    the sources.  A positional reference is a node of kind [VALUE_TUPLE]
    without children that carries the index of an input and an offset into
    it, constructed from a return type and these two. *)
Definition DerivedValueExpression_new (type : TypeId) (tuple_idx value_idx : Z)
  : AbstractExpression :=
  AbstractExpression_new VALUE_TUPLE type []
    (DerivedValueExpression tuple_idx value_idx).

(** Modelled from the spec: the class [CaseExpression] is not among the
    sources.  A case expression is a node of kind [OPERATOR_CASE_EXPR]
    without children that holds its when-clauses, each a condition and a
    result, and its default clause. *)
Definition CaseExpression_new (type : TypeId)
    (clauses : list (ExprPtr * ExprPtr)) (def_cond : ExprPtr)
  : AbstractExpression :=
  AbstractExpression_new OPERATOR_CASE_EXPR type []
    (CaseExpression clauses def_cond).

(** Modelled from the spec: the class [ConjunctionExpression] is not among
    the sources.  A conjunction is a boolean-valued node of the given kind
    over the given children. *)
Definition ConjunctionExpression_new (type : ExpressionType)
    (children : list ExprPtr) : AbstractExpression :=
  AbstractExpression_new type BOOLEAN children OtherExpression.

(** [dynamic_cast<const ColumnValueExpression *>(expr) != nullptr] and
    [dynamic_cast<const CaseExpression *>(expr) != nullptr]. *)
Definition is_ColumnValueExpression (e : AbstractExpression) : bool :=
  match class_ e with ColumnValueExpression _ => true | _ => false end.
Definition is_CaseExpression (e : AbstractExpression) : bool :=
  match class_ e with CaseExpression _ _ => true | _ => false end.

(** Modelled from the spec: [optimizer::AnnotatedExpression] is declared in
    the missing [optimizer/optimizer_defs.h]; it holds a pointer to an
    expression and the table aliases the expression mentions. *)
Record AnnotatedExpression : Type := {
  expr_ : ExprPtr;
  table_alias_set_ : list string
}.
Definition GetExpr (a : AnnotatedExpression) : ExprPtr := expr_ a.

(** *** Logging *)

(** A computation that appends to the optimizer log and may abort. *)
Definition Logged (A : Type) : Type := list string → result (A * list string).

Global Instance Logged_ret : MRet Logged := λ A a log, Ok (a, log).
Global Instance Logged_bind : MBind Logged := λ A B k m log,
  match m log with Ok (a, log') => k a log' | Fatal f => Fatal f end.

Definition lift {A} (r : result A) : Logged A := λ log,
  match r with Ok a => Ok (a, log) | Fatal f => Fatal f end.

Definition OPTIMIZER_LOG_WARN (msg : string) : Logged unit :=
  λ log, Ok (tt, log ++ [msg]).

Definition unbound_warning : string :=
  "EvaluateExpression resulted in an unbound ColumnValueExpression".

(** *** [ConvertExprCVNodes] *)

(** The loop over [child_expr_maps] for one child: the positional reference
    that is inserted for the child, if any ([did_insert]).  The test
    dereferences the child; the lookup that yields the offset is a lookup of
    the enclosing expression [expr]. *)
Fixpoint ConvertExprCVNodes_scan `{!OptimizerDefs}
    (child_expr_maps : list ExprMap) (expr : AbstractExpression)
    (child_expr : ExprPtr) (tuple_idx : Z) : result ExprPtr :=
  match child_expr_maps with
  | [] => Ok None
  | child_expr_map :: rest =>
      c ← deref child_expr;
      if negb (bool_decide (GetExpressionType c = COLUMN_VALUE)) &&
         negb (ExprMap_count child_expr_map c =? 0)%N
      then
        let type := GetReturnValueType c in
        match ExprMap_find child_expr_map expr with
        | None => Fatal (AssertionFailure "Missing ColumnValueExpression...")
        | Some second =>
            let value_idx := static_cast_int (Z.of_N second) in
            Ok (Some (DerivedValueExpression_new type tuple_idx value_idx))
        end
      else ConvertExprCVNodes_scan rest expr child_expr (tuple_idx + 1)
  end.

(** The body of [ConvertExprCVNodes] for a non-null [expr]: for every child
    the scan, and the recursive conversion when the scan inserted nothing. *)
Fixpoint ConvertExprCVNodes_node `{!OptimizerDefs, !ChildArity}
    (child_expr_maps : list ExprMap) (expr : AbstractExpression)
  : result AbstractExpression :=
  children ←
    mapM (λ child_expr : ExprPtr,
            inserted ← ConvertExprCVNodes_scan child_expr_maps expr child_expr 0;
            match inserted with
            | Some dve => Ok (Some dve)
            | None =>
                match child_expr with
                | Some c =>
                    c' ← ConvertExprCVNodes_node child_expr_maps c; Ok (Some c')
                | None => Ok None
                end
            end) (children_ expr);
  _ ← TERRIER_ASSERT (bool_decide (length children = GetChildrenSize expr))
        "size not equal after walk";
  CopyWithChildren expr children.

Definition ConvertExprCVNodes `{!OptimizerDefs, !ChildArity}
    (expr : ExprPtr) (child_expr_maps : list ExprMap) : result ExprPtr :=
  match expr with
  | None => Ok None
  | Some e => e' ← ConvertExprCVNodes_node child_expr_maps e; Ok (Some e')
  end.

(** *** [EvaluateExpression] *)

(** The loop over [expr_maps] for a column reference: the index of the first
    map that contains [expr] and the offset it stores. *)
Fixpoint EvaluateExpression_find `{!OptimizerDefs} (expr_maps : list ExprMap)
    (expr : AbstractExpression) (tuple_idx : Z) : option (Z * N) :=
  match expr_maps with
  | [] => None
  | expr_map :: rest =>
      match ExprMap_find expr_map expr with
      | Some second => Some (tuple_idx, second)
      | None => EvaluateExpression_find rest expr (tuple_idx + 1)
      end
  end.

(** The body of [EvaluateExpression] for a non-null [expr].  The vector
    [children] is constructed with [children_size] null entries and the
    evaluated children are pushed behind them.  [GetChild(i)] is read for
    [i < children_size] only, so its bounds assertion holds and the loop runs
    over the child vector. *)
Fixpoint EvaluateExpression_node `{!OptimizerDefs, !ChildArity}
    (expr_maps : list ExprMap) (expr : AbstractExpression) : Logged ExprPtr :=
  let evaluate := λ p : ExprPtr,
    match p with
    | Some c => EvaluateExpression_node expr_maps c
    | None => mret None
    end in
  let children_size := GetChildrenSize expr in
  evaluated ← mapM evaluate (children_ expr);
  let children := replicate children_size None ++ evaluated in
  let rebuild : Logged ExprPtr :=
    _ ← lift (TERRIER_ASSERT
                (negb (bool_decide (GetExpressionType expr = VALUE_TUPLE)))
                "DerivedValueExpression should not be present");
    e ← lift (CopyWithChildren expr children);
    mret (Some e) in
  if bool_decide (GetExpressionType expr = COLUMN_VALUE) then
    _ ← lift (TERRIER_ASSERT (is_ColumnValueExpression expr)
                "expr should be ColumnValueExpression");
    _ ← lift (TERRIER_ASSERT (bool_decide (children_size = 0%nat))
                "ColumnValueExpression should have 0 children");
    match EvaluateExpression_find expr_maps expr 0 with
    | Some (tuple_idx, second) =>
        let type := GetReturnValueType expr in
        mret (Some (DerivedValueExpression_new type tuple_idx
                      (static_cast_int (Z.of_N second))))
    | None => _ ← OPTIMIZER_LOG_WARN unbound_warning; rebuild
    end
  else if IsAggregateExpression (GetExpressionType expr) then rebuild
  else if bool_decide (GetExpressionType expr = FUNCTION) then rebuild
  else if bool_decide (GetExpressionType expr = OPERATOR_CASE_EXPR) then
    match class_ expr with
    | CaseExpression when_clauses default_clause =>
        _ ← lift (TERRIER_ASSERT (bool_decide (children_size = 0%nat))
                    "CaseExpression should have 0 children");
        clauses ← mapM (λ clause : ExprPtr * ExprPtr,
                          cond ← evaluate (fst clause);
                          res ← evaluate (snd clause);
                          mret (cond, res)) when_clauses;
        def_cond ← evaluate default_clause;
        let type := GetReturnValueType expr in
        mret (Some (CaseExpression_new type clauses def_cond))
    | _ => lift (Fatal (AssertionFailure "expr should be CaseExpression"))
    end
  else rebuild.

Definition EvaluateExpression `{!OptimizerDefs, !ChildArity}
    (expr_maps : list ExprMap) (expr : ExprPtr) : Logged ExprPtr :=
  match expr with
  | None => mret None
  | Some e => EvaluateExpression_node expr_maps e
  end.

(** *** [EqualExpressions] *)

(** The loop of the ordered comparison, over the positions [i] of [l]. *)
Fixpoint EqualExpressions_ordered (l r : list ExprPtr) : result bool :=
  match l with
  | [] => Ok true
  | x :: l' =>
      match r with
      | [] => Fatal OutOfBounds
      | y :: r' =>
          a ← deref x;
          b ← deref y;
          eq ← operator_eq a b;
          if eq : bool then Ok false else EqualExpressions_ordered l' r'
      end
  end.

Definition EqualExpressions `{!OptimizerDefs} (l r : list ExprPtr)
    (ordered : bool) : result bool :=
  if negb (bool_decide (length l = length r)) then Ok false
  else if ordered then EqualExpressions_ordered l r
  else
    l_set ← foldlM ExprSet_insert l ExprSet_new;
    r_set ← foldlM ExprSet_insert r ExprSet_new;
    ExprSet_equal l_set r_set.

(** *** [JoinAnnotatedExprs] *)

(** One round of the loop: the copy of the next expression is pushed and the
    vector is replaced by the one conjunction over its entries. *)
Definition JoinAnnotatedExprs_step (children : list ExprPtr)
    (a : AnnotatedExpression) : result (list ExprPtr) :=
  e ← deref (GetExpr a);
  c ← Copy e;
  let children := children ++ [Some c] in
  let shared := ConjunctionExpression_new CONJUNCTION_AND children in
  Ok [Some shared].

Definition JoinAnnotatedExprs (exprs : list AnnotatedExpression)
  : result ExprPtr :=
  match exprs with
  | [] => Ok None
  | first :: rest =>
      e0 ← deref (GetExpr first);
      c0 ← Copy e0;
      children ← foldlM JoinAnnotatedExprs_step rest [Some c0];
      _ ← TERRIER_ASSERT (bool_decide (length children = 1%nat))
            "children should have exactly 1 AbstractExpression";
      match children !! 0%nat with
      | Some p => Ok p
      | None => Fatal OutOfBounds
      end
  end.

(** ** [PropertyEnforcer] *)

(** Modelled from the spec: [optimizer/physical_operators.h] is not among the
    sources.  [Operator] is the type of operator instances and [OrderBy_make],
    the value of [OrderBy::make()], the sort/order-by physical operator. *)
Class PhysicalOperators : Type := {
  Operator : Type;
  OrderBy_make : Operator
}.

(** Modelled from the spec: a group is identified by [GroupID], an opaque
    integer; a group expression that has not been put into a group carries
    [UNDEFINED_GROUP]. *)
Definition GroupID : Type := Z.
Definition UNDEFINED_GROUP : GroupID := -1.

(** Modelled from the spec: the class [GroupExpression] is not among the
    sources.  It holds its operator, the identifiers of its child groups, one
    per input of the operator, and the identifier of the group it belongs to;
    it is constructed from the first two and belongs to no group then. *)
Record GroupExpression `{!PhysicalOperators} : Type := {
  op_ : Operator;
  child_groups_ : list GroupID;
  group_id_ : GroupID
}.

Definition GroupExpression_new `{!PhysicalOperators} (op : Operator)
    (child_groups : list GroupID) : GroupExpression :=
  {| op_ := op; child_groups_ := child_groups; group_id_ := UNDEFINED_GROUP |}.

Definition GetGroupID `{!PhysicalOperators} (g : GroupExpression) : GroupID :=
  group_id_ g.

(** Modelled from the spec: [optimizer/properties.h] is not among the
    sources.  The one property kind the enforcer visits is [PropertySort],
    an ordered sequence of columns with their directions. *)
Inductive Property : Type :=
| PropertySort (sort_columns_ : list ExprPtr) (sort_ascending_ : list bool).

Record PropertyEnforcer `{!PhysicalOperators} : Type := {
  input_gexpr_ : option GroupExpression;
  output_gexpr_ : option GroupExpression
}.

(** [PropertyEnforcer::Visit] for a [PropertySort]. *)
Definition Visit `{!PhysicalOperators} (this : PropertyEnforcer)
    (prop : Property) : result PropertyEnforcer :=
  match prop with
  | PropertySort _ _ =>
      input ← deref (input_gexpr_ this);
      let child_groups := replicate 1 (GetGroupID input) in
      Ok {| input_gexpr_ := input_gexpr_ this;
            output_gexpr_ :=
              Some (GroupExpression_new OrderBy_make child_groups) |}
  end.

(** [Property::Accept(visitor)]: dispatch on the kind of the property. *)
Definition Property_Accept `{!PhysicalOperators} (property : Property)
    (v : PropertyEnforcer) : result PropertyEnforcer :=
  Visit v property.

Definition EnforceProperty `{!PhysicalOperators} (this : PropertyEnforcer)
    (gexpr : option GroupExpression) (property : option Property)
  : result (PropertyEnforcer * option GroupExpression) :=
  let this := {| input_gexpr_ := gexpr; output_gexpr_ := output_gexpr_ this |} in
  p ← deref property;
  this ← Property_Accept p this;
  Ok (this, output_gexpr_ this).

(** ** Well-formed trees *)

(** No child pointer in the tree is null. *)
Fixpoint null_free (e : AbstractExpression) : bool :=
  forallb (λ c : ExprPtr,
             match c with Some x => null_free x | None => false end)
    (children_ e).

(** ** Sample data *)

(** An instance of the optimizer's containers: association lists and lists
    looked up with the structural equality [operator==]. *)
Definition same_expr (a b : AbstractExpression) : bool :=
  match operator_eq a b with Ok true => true | _ => false end.

Definition assoc_find (m : list (AbstractExpression * N))
    (e : AbstractExpression) : option N :=
  snd <$> find (λ kv, same_expr (fst kv) e) m.

Definition subset_exprs (s t : list AbstractExpression) : bool :=
  forallb (λ a, existsb (same_expr a) t) s.

Definition list_defs : OptimizerDefs := {|
  ExprMap := list (AbstractExpression * N);
  ExprMap_find := assoc_find;
  ExprSet := list AbstractExpression;
  ExprSet_new := [];
  ExprSet_insert := λ s p,
    e ← deref p; Ok (if existsb (same_expr e) s then s else s ++ [e]);
  ExprSet_equal := λ s t, Ok (subset_exprs s t && subset_exprs t s)
|}.

(** An arity table: leaves take no child, the unary operators one, the
    binary operators, comparisons and conjunctions two. *)
Definition operator_arity : ChildArity := {|
  arity_compatible := λ t n,
    match t with
    | COLUMN_VALUE | VALUE_CONSTANT | VALUE_PARAMETER | VALUE_TUPLE
    | OPERATOR_CASE_EXPR => bool_decide (n = 0%nat)
    | OPERATOR_UNARY_MINUS | OPERATOR_NOT | OPERATOR_IS_NULL
    | OPERATOR_IS_NOT_NULL | OPERATOR_EXISTS | OPERATOR_CAST =>
        bool_decide (n = 1%nat)
    | OPERATOR_PLUS | OPERATOR_MINUS | OPERATOR_MULTIPLY | OPERATOR_DIVIDE
    | OPERATOR_CONCAT | OPERATOR_MOD
    | COMPARE_EQUAL | COMPARE_NOT_EQUAL | COMPARE_LESS_THAN
    | COMPARE_GREATER_THAN | COMPARE_LESS_THAN_OR_EQUAL_TO
    | COMPARE_GREATER_THAN_OR_EQUAL_TO
    | CONJUNCTION_AND | CONJUNCTION_OR => bool_decide (n = 2%nat)
    | AGGREGATE_COUNT | AGGREGATE_SUM | AGGREGATE_MIN | AGGREGATE_MAX
    | AGGREGATE_AVG => bool_decide (n ≤ 1)%nat
    | FUNCTION | INVALID => true
    end
|}.

(** The overrides that accept any number of children. *)
Definition unchecked_arity : ChildArity := {| arity_compatible := λ _ _, true |}.

(** A toy hash: integers combined by a multiply-and-add. *)
Definition toy_hash : HashUtil := {|
  hash_t := Z;
  Hash_ExpressionType := λ t, if bool_decide (t = OPERATOR_PLUS) then 7 else 3;
  Hash_TypeId := TypeId_underlying;
  Hash_string := λ s, Z.of_nat (String.length s);
  Hash_int := λ z, z;
  Hash_char := λ z, z;
  CombineHashes := λ a b, (31 * a + b) `mod` 18446744073709551616
|}.

Definition int_1 : AbstractExpression :=
  MkExpression VALUE_CONSTANT "1" "" INTEGER (-1) false [] OtherExpression.
Definition dec_2 : AbstractExpression :=
  MkExpression VALUE_CONSTANT "2.5" "" DECIMAL (-1) false [] OtherExpression.
Definition str_3 : AbstractExpression :=
  MkExpression VALUE_CONSTANT "abc" "" VARCHAR (-1) false [] OtherExpression.
Definition col_x : AbstractExpression :=
  MkExpression COLUMN_VALUE "x" "" INTEGER (-1) false []
    (ColumnValueExpression "t").
Definition col_y : AbstractExpression :=
  MkExpression COLUMN_VALUE "y" "" DECIMAL (-1) false []
    (ColumnValueExpression "t").
Definition sum_x : AbstractExpression :=
  MkExpression AGGREGATE_SUM "sum" "" INTEGER (-1) false [Some col_x]
    OtherExpression.
Definition plus_1_2 : AbstractExpression :=
  AbstractExpression_new OPERATOR_PLUS INTEGER [Some int_1; Some dec_2]
    OtherExpression.
Definition plus_x_1 : AbstractExpression :=
  AbstractExpression_new OPERATOR_PLUS INTEGER [Some col_x; Some int_1]
    OtherExpression.
Definition plus_sum_1 : AbstractExpression :=
  AbstractExpression_new OPERATOR_PLUS INTEGER [Some sum_x; Some int_1]
    OtherExpression.
Definition not_x : AbstractExpression :=
  AbstractExpression_new OPERATOR_NOT INTEGER [Some col_x] OtherExpression.

(** Output maps of two inputs: the second holds the aggregate and the
    addition over it. *)
Definition maps_sum : list (list (AbstractExpression * N)) :=
  [[(col_x, 0%N)]; [(sum_x, 2%N); (plus_sum_1, 7%N)]].
(** The output map of one input that holds a column. *)
Definition maps_col : list (list (AbstractExpression * N)) :=
  [[(col_x, 4%N)]].
(** The output map of one input that holds the aggregate alone. *)
Definition maps_agg : list (list (AbstractExpression * N)) :=
  [[(sum_x, 2%N)]].

Definition annotate (e : AbstractExpression) : AnnotatedExpression :=
  {| expr_ := Some e; table_alias_set_ := [] |}.

(** ** The conjunctive fold, as the specification words it *)

(** [AND(l, r)]. *)
Definition AND (l r : AbstractExpression) : AbstractExpression :=
  ConjunctionExpression_new CONJUNCTION_AND [Some l; Some r].

(** [AND(...AND(AND(p1, p2), p3)..., pn)] for [p1 :: [p2; ...; pn]]. *)
Definition left_fold_AND (p1 : AbstractExpression)
    (ps : list AbstractExpression) : AbstractExpression :=
  foldl AND p1 ps.

(** ** The column-to-positional rewriting, as the specification words it *)

(** The index of the first input whose map contains the expression. *)
Fixpoint first_containing `{!OptimizerDefs} (maps : list ExprMap)
    (c : AbstractExpression) : option nat :=
  match maps with
  | [] => None
  | m :: ms =>
      match ExprMap_find m c with
      | Some _ => Some 0%nat
      | None => S <$> first_containing ms c
      end
  end.

(** A child is kept for the recursion when it is null, a column reference,
    or contained in no map. *)
Definition kept_child `{!OptimizerDefs} (maps : list ExprMap) (c : ExprPtr)
  : Prop :=
  ∀ x, c = Some x →
       GetExpressionType x = COLUMN_VALUE ∨ first_containing maps x = None.

(** How a child [c] relates to the child [c'] that takes its place: a child
    that is not a column reference and is contained in some map is replaced
    by a positional reference with the index of the first such map and the
    return type of the child; any other child is converted recursively. *)
Inductive converted_child `{!OptimizerDefs, !ChildArity} (maps : list ExprMap)
  : ExprPtr → ExprPtr → Prop :=
| converted_replaced (x : AbstractExpression) (k : nat) (value_idx : Z) :
    GetExpressionType x ≠ COLUMN_VALUE →
    first_containing maps x = Some k →
    converted_child maps (Some x)
      (Some (DerivedValueExpression_new (GetReturnValueType x) (Z.of_nat k)
               value_idx))
| converted_recursively (c c' : ExprPtr) :
    kept_child maps c →
    ConvertExprCVNodes c maps = Ok c' →
    converted_child maps c c'.

(** ** The traversals of [ExpressionUtil] *)

(** *** [GenerateTableAliasSet] *)

(** The body of [GenerateTableAliasSet] for a non-null [expr]; the set is a
    [std::unordered_set<std::string>].  A column reference contributes its
    table name, which must not be empty; any other node that is not a
    positional reference is walked child by child, each child pointer being
    dereferenced. *)
Fixpoint GenerateTableAliasSet_node (expr : AbstractExpression)
    (table_alias_set : gset string) : result (gset string) :=
  if bool_decide (GetExpressionType expr = COLUMN_VALUE) then
    match class_ expr with
    | ColumnValueExpression tbl =>
        _ ← TERRIER_ASSERT (negb (bool_decide (tbl = "")))
              "Table alias should not be empty";
        Ok ({[ tbl ]} ∪ table_alias_set)
    | _ => Fatal (AssertionFailure "tv_expr should be ColumnValueExpression")
    end
  else
    _ ← TERRIER_ASSERT
          (negb (bool_decide (GetExpressionType expr = VALUE_TUPLE)))
          "DerivedValueExpression should not exist.";
    foldlM (λ set (child : ExprPtr),
              match child with
              | Some c => GenerateTableAliasSet_node c set
              | None => Fatal NullDereference
              end) (children_ expr) table_alias_set.

Definition GenerateTableAliasSet (expr : ExprPtr)
    (table_alias_set : gset string) : result (gset string) :=
  e ← deref expr;
  GenerateTableAliasSet_node e table_alias_set.

(** *** [GetTupleAndAggregateExprs] and [GetAggregateExprs] *)

(** The class [AggregateExpression] is not among the sources: whether
    [dynamic_cast<const AggregateExpression *>(expr)] succeeds on a node is a
    parameter. *)
Class AggregateClass : Type := {
  is_AggregateExpression : AbstractExpression → bool
}.

(** The body of [GetTupleAndAggregateExprs] on vectors for a non-null
    [expr]; the two vectors are threaded through.  An aggregate is pushed
    and not descended into; a column reference is pushed, its cast being
    dereferenced before it is checked; any other node that is not a
    positional reference is walked child by child. *)
Fixpoint GetTupleAndAggregateExprs_node `{!AggregateClass}
    (aggr_exprs tv_exprs : list AbstractExpression) (expr : AbstractExpression)
  : result (list AbstractExpression * list AbstractExpression) :=
  if IsAggregateExpression (GetExpressionType expr) then
    _ ← TERRIER_ASSERT (is_AggregateExpression expr)
          "expr should be AggregateExpresision";
    Ok (aggr_exprs ++ [expr], tv_exprs)
  else if bool_decide (GetExpressionType expr = COLUMN_VALUE) then
    if is_ColumnValueExpression expr then
      _ ← TERRIER_ASSERT (bool_decide (GetChildrenSize expr = 0%nat))
            "ColumnValueExpression should have no children";
      Ok (aggr_exprs, tv_exprs ++ [expr])
    else Fatal NullDereference
  else
    _ ← TERRIER_ASSERT
          (negb (bool_decide (GetExpressionType expr = VALUE_TUPLE)))
          "DerivedValueExpression should not exist here.";
    foldlM (λ (found : list AbstractExpression * list AbstractExpression)
              (child : ExprPtr),
              match child with
              | Some c => GetTupleAndAggregateExprs_node (fst found) (snd found) c
              | None => Fatal NullDereference
              end) (children_ expr) (aggr_exprs, tv_exprs).

Definition GetTupleAndAggregateExprs `{!AggregateClass}
    (aggr_exprs tv_exprs : list AbstractExpression) (expr : ExprPtr)
  : result (list AbstractExpression * list AbstractExpression) :=
  e ← deref expr;
  GetTupleAndAggregateExprs_node aggr_exprs tv_exprs e.

Definition GetAggregateExprs `{!AggregateClass}
    (aggr_exprs : list AbstractExpression) (expr : ExprPtr)
  : result (list AbstractExpression) :=
  let dummy_tv_exprs := [] in
  found ← GetTupleAndAggregateExprs aggr_exprs dummy_tv_exprs expr;
  Ok (fst found).

(** The casts of the sample data: the nodes of an aggregate kind are
    aggregate expressions. *)
Definition kind_aggregates : AggregateClass := {|
  is_AggregateExpression := λ e, IsAggregateExpression (GetExpressionType e)
|}.

(** [sum(x) + y] and [t.x + u.y]. *)
Definition plus_sum_y : AbstractExpression :=
  AbstractExpression_new OPERATOR_PLUS DECIMAL [Some sum_x; Some col_y]
    OtherExpression.
Definition col_u_y : AbstractExpression :=
  MkExpression COLUMN_VALUE "y" "" DECIMAL (-1) false []
    (ColumnValueExpression "u").
Definition plus_x_uy : AbstractExpression :=
  AbstractExpression_new OPERATOR_PLUS DECIMAL [Some col_x; Some col_u_y]
    OtherExpression.

(** ** Induction over the children and the clauses of a node *)

(** The property holds of the expressions that the members of the derived
    class point to: the conditions, the results and the default of a case
    expression. *)
Definition on_class (P : AbstractExpression → Prop)
    (cls : ExpressionClass AbstractExpression) : Prop :=
  match cls with
  | CaseExpression when_clauses default_expr =>
      Forall (λ clause : ExprPtr * ExprPtr,
                on_child P (fst clause) ∧ on_child P (snd clause)) when_clauses ∧
      on_child P default_expr
  | _ => True
  end.

Section AbstractExpression_full_ind.
Variable P : AbstractExpression → Prop.
Hypothesis node :
  ∀ e, Forall (on_child P) (children_ e) → on_class P (class_ e) → P e.

Fixpoint AbstractExpression_full_ind (e : AbstractExpression) : P e :=
  let pointer := λ p : ExprPtr,
    match p as p0 return on_child P p0 with
    | Some y => AbstractExpression_full_ind y
    | None => I
    end in
  node e
    (match e as e0 return Forall (on_child P) (children_ e0) with
     | MkExpression _ _ _ _ _ _ cs _ =>
         (fix go (l : list ExprPtr) : Forall (on_child P) l :=
            match l with
            | [] => List.Forall_nil _
            | c :: l' => List.Forall_cons _ c l' (pointer c) (go l')
            end) cs
     end)
    (match e as e0 return on_class P (class_ e0) with
     | MkExpression _ _ _ _ _ _ _ cl =>
         match cl as cl0 return on_class P cl0 with
         | CaseExpression when_clauses default_expr =>
             conj
               ((fix go (l : list (ExprPtr * ExprPtr))
                   : Forall (λ clause : ExprPtr * ExprPtr,
                               on_child P (fst clause) ∧ on_child P (snd clause)) l :=
                   match l with
                   | [] => List.Forall_nil _
                   | clause :: l' =>
                       List.Forall_cons _ clause l'
                         (conj (pointer (fst clause)) (pointer (snd clause)))
                         (go l')
                   end) when_clauses)
               (pointer default_expr)
         | _ => I
         end
     end).
End AbstractExpression_full_ind.

(** The second log is the first one followed by warnings about unbound
    column references. *)
Definition warnings_appended (log log' : list string) : Prop :=
  ∃ n : nat, log' = log ++ replicate n unbound_warning.

(** *** [GetTupleValueExprs] on a set *)

(** The body of [GetTupleValueExprs] on an [ExprSet] for a non-null [expr]:
    the children are walked first, each child pointer being dereferenced,
    and the node is inserted afterwards when its kind is [VALUE_TUPLE]. *)
Fixpoint GetTupleValueExprs_node `{!OptimizerDefs} (expr_set : ExprSet)
    (expr : AbstractExpression) : result ExprSet :=
  expr_set ←
    foldlM (λ set (child : ExprPtr),
              match child with
              | Some c => GetTupleValueExprs_node set c
              | None => Fatal NullDereference
              end) (children_ expr) expr_set;
  if bool_decide (GetExpressionType expr = VALUE_TUPLE)
  then ExprSet_insert expr_set (Some expr)
  else Ok expr_set.

Definition GetTupleValueExprs `{!OptimizerDefs} (expr_set : ExprSet)
    (expr : ExprPtr) : result ExprSet :=
  e ← deref expr;
  GetTupleValueExprs_node expr_set e.

(** No node of the tree is of kind [VALUE_TUPLE]. *)
Fixpoint no_positional (e : AbstractExpression) : bool :=
  negb (bool_decide (GetExpressionType e = VALUE_TUPLE)) &&
  forallb (λ c : ExprPtr,
             match c with Some x => no_positional x | None => true end)
    (children_ e).

(** ** Trees that the rewriting leaves as they are *)

(** Every node of the tree has a number of children that is compatible with
    the arity of its kind. *)
Fixpoint arity_respected `{!ChildArity} (e : AbstractExpression) : bool :=
  arity_compatible (GetExpressionType e) (length (children_ e)) &&
  forallb (λ c : ExprPtr,
             match c with Some x => arity_respected x | None => true end)
    (children_ e).

(** Below the root, every node that some map contains is a column
    reference. *)
Fixpoint all_kept `{!OptimizerDefs} (maps : list ExprMap)
    (e : AbstractExpression) : bool :=
  forallb (λ c : ExprPtr,
             match c with
             | Some x =>
                 (bool_decide (GetExpressionType x = COLUMN_VALUE) ||
                  bool_decide (first_containing maps x = None)) &&
                 all_kept maps x
             | None => true
             end)
    (children_ e).

(** An annotated expression whose pointer and whose tree hold no null
    pointer. *)
Definition annotated_null_free (a : AnnotatedExpression) : bool :=
  match GetExpr a with Some e => null_free e | None => false end.

(** * Properties *)

(** ** The error monad and its loops *)

Lemma bind_Ok {A B} (m : result A) (k : A → result B) (b : B) :
  m ≫= k = Ok b ↔ ∃ a, m = Ok a ∧ k a = Ok b.
Proof.
  destruct m as [a|f]; simpl; split.
  - intros H. by exists a.
  - by intros (a' & [= <-] & H).
  - discriminate.
  - by intros (a' & [=] & _).
Qed.

Lemma mapM_Ok {A B} (f : A → result B) (l : list A) (k : list B) :
  mapM f l = Ok k ↔ Forall2 (λ x y, f x = Ok y) l k.
Proof.
  revert k. induction l as [|x l IH]; intros k; simpl.
  - split; [intros [= <-]; constructor | by inversion 1].
  - split.
    + intros (y & Hy & Hk)%bind_Ok.
      apply bind_Ok in Hk as (k' & Hk' & [= <-]).
      constructor; [done|]. by apply IH.
    + inversion 1 as [|? y ? k' Hy Hk]; subst.
      apply bind_Ok. exists y. split; [done|].
      apply bind_Ok. exists k'. split; [by apply IH|done].
Qed.

Lemma mapM_Ok_length {A B} (f : A → result B) (l : list A) (k : list B) :
  mapM f l = Ok k → length k = length l.
Proof. intros H%mapM_Ok. symmetry. by eapply Forall2_length. Qed.

(** ** Copies *)

Lemma null_free_children e :
  null_free e = true →
  Forall (λ c : ExprPtr, ∃ x, c = Some x ∧ null_free x = true) (children_ e).
Proof.
  destruct e as [t n a r d h cs cl]; simpl.
  induction cs as [|c cs IH]; simpl; [constructor|].
  intros [Hc Hcs]%andb_true_iff. constructor; [|by apply IH].
  destruct c as [x|]; [by exists x|discriminate].
Qed.

(** On a tree without null children, [Copy] returns an equal tree. *)
Lemma Copy_null_free e : null_free e = true → Copy e = Ok e.
Proof.
  induction e as [e IH] using AbstractExpression_children_ind.
  intros Hnf%null_free_children.
  destruct e as [t n a r d h cs cl]; simpl in *.
  assert (Hm : mapM (λ child : ExprPtr,
                       match child with
                       | Some c => c' ← Copy c; Ok (Some c')
                       | None => Fatal NullDereference
                       end) cs = Ok cs).
  { apply mapM_Ok. induction cs as [|c cs IHcs]; [constructor|].
    inversion IH as [|? ? Hc IH']; inversion Hnf as [|? ? (y & -> & Hy) Hnf']; subst.
    constructor; [|by apply IHcs].
    simpl in Hc. by rewrite (Hc Hy). }
  unfold GetChildren; simpl. by rewrite Hm.
Qed.

(** ** Comparison kinds *)

(** C9: [ReverseComparisonExpressionType] is an involution; it swaps [>]
    with [<=] and [>=] with [<], and every other kind is a fixed point. *)
Theorem ReverseComparisonExpressionType_involution :
  (∀ t, ReverseComparisonExpressionType (ReverseComparisonExpressionType t) = t) ∧
  ReverseComparisonExpressionType COMPARE_GREATER_THAN
    = COMPARE_LESS_THAN_OR_EQUAL_TO ∧
  ReverseComparisonExpressionType COMPARE_LESS_THAN_OR_EQUAL_TO
    = COMPARE_GREATER_THAN ∧
  ReverseComparisonExpressionType COMPARE_GREATER_THAN_OR_EQUAL_TO
    = COMPARE_LESS_THAN ∧
  ReverseComparisonExpressionType COMPARE_LESS_THAN
    = COMPARE_GREATER_THAN_OR_EQUAL_TO ∧
  (∀ t, t = COMPARE_GREATER_THAN ∨ t = COMPARE_GREATER_THAN_OR_EQUAL_TO ∨
        t = COMPARE_LESS_THAN ∨ t = COMPARE_LESS_THAN_OR_EQUAL_TO ∨
        ReverseComparisonExpressionType t = t).
Proof.
  repeat split; try reflexivity.
  - by intros [].
  - intros []; tauto.
Qed.

(** ** Property enforcement *)

(** C7: for an input group expression and a sort property, [EnforceProperty]
    returns a newly constructed group expression whose operator is the
    order-by physical operator and whose child groups are the one-element
    list of the group of the input. *)
Theorem EnforceProperty_sort `{!PhysicalOperators} (this : PropertyEnforcer)
    (gexpr : GroupExpression) (cols : list ExprPtr) (asc : list bool) :
  ∃ out,
    EnforceProperty this (Some gexpr) (Some (PropertySort cols asc))
      = Ok ({| input_gexpr_ := Some gexpr; output_gexpr_ := Some out |}, Some out) ∧
    out = GroupExpression_new OrderBy_make [GetGroupID gexpr] ∧
    op_ out = OrderBy_make ∧
    child_groups_ out = [GetGroupID gexpr] ∧
    length (child_groups_ out) = 1%nat.
Proof. eexists. repeat split. Qed.

(** ** Structural equality *)

Lemma operator_eq_unfold this rhs :
  operator_eq this rhs =
  if negb (bool_decide (expression_type_ this = expression_type_ rhs)) then Ok false
  else if negb (bool_decide (alias_ this = alias_ rhs)) then Ok false
  else if negb (bool_decide (expression_name_ this = expression_name_ rhs)) then Ok false
  else if negb (bool_decide (depth_ this = depth_ rhs)) then Ok false
  else if negb (bool_decide (has_subquery_ this = has_subquery_ rhs)) then Ok false
  else if negb (bool_decide (length (children_ this) = length (children_ rhs))) then Ok false
  else
    children_equal (λ a b, operator_eq a b)
      (bool_decide (return_value_type_ this = return_value_type_ rhs))
      (children_ this) (children_ rhs).
Proof. by destruct this. Qed.

(** A tree without null children is equal to itself. *)
Lemma operator_eq_refl e : null_free e = true → operator_eq e e = Ok true.
Proof.
  induction e as [e IH] using AbstractExpression_children_ind.
  intros Hnf%null_free_children. rewrite operator_eq_unfold.
  rewrite !bool_decide_eq_true_2 by done. simpl.
  induction (children_ e) as [|c cs IHcs]; simpl; [done|].
  inversion IH as [|? ? Hc IH']; inversion Hnf as [|? ? (y & -> & Hy) Hnf'];
    subst.
  simpl in Hc. rewrite (Hc Hy). simpl. by apply IHcs.
Qed.

(** The copy of a tree without null children is equal to the tree. *)
Lemma Copy_operator_eq e :
  null_free e = true → ∃ c, Copy e = Ok c ∧ operator_eq c e = Ok true.
Proof.
  intros He. exists e. split; [by apply Copy_null_free|by apply operator_eq_refl].
Qed.

(** ** Ordered equality of expression lists *)

(** The ordered comparison accepts two lists only if no two corresponding
    expressions are equal. *)
Lemma EqualExpressions_ordered_true l r :
  EqualExpressions_ordered l r = Ok true →
  ∀ i a b, l !! i = Some (Some a) → r !! i = Some (Some b) →
           operator_eq a b = Ok false.
Proof.
  revert r. induction l as [|x l IH]; intros [|y r] H i a b Hl Hr;
    try done; simpl in H.
  apply bind_Ok in H as (a' & Ha & H).
  apply bind_Ok in H as (b' & Hb & H).
  apply bind_Ok in H as (e & He & H).
  destruct x as [x|], y as [y|]; simplify_eq/=.
  destruct e; [done|].
  destruct i as [|i]; simplify_eq/=; [done|]. by eapply IH.
Qed.

(** The ordered comparison of a non-empty list of trees without null
    children with itself answers [false]. *)
Lemma EqualExpressions_ordered_self `{!OptimizerDefs} e es :
  null_free e = true →
  EqualExpressions (Some <$> e :: es) (Some <$> e :: es) true = Ok false.
Proof.
  intros He. unfold EqualExpressions.
  rewrite bool_decide_eq_true_2 by done. simpl.
  by rewrite (operator_eq_refl e He).
Qed.

(** C1: the ordered comparison of a list with itself answers [false], and
    the ordered comparison of two lists that differ at their one position
    answers [true]: the test in the loop is the negation of the pairwise
    equality. *)
Theorem EqualExpressions_ordered_inverted `{!OptimizerDefs} :
  EqualExpressions [Some int_1; Some dec_2] [Some int_1; Some dec_2] true
    = Ok false ∧
  EqualExpressions [Some int_1] [Some dec_2] true = Ok true ∧
  operator_eq int_1 int_1 = Ok true ∧
  operator_eq dec_2 dec_2 = Ok true ∧
  operator_eq int_1 dec_2 = Ok false.
Proof. repeat split. Qed.

(** ** Return type of an operator *)

(** Over non-null children [max_element] returns a child whose return type
    is the greatest. *)
Lemma max_element_from_greatest (c : AbstractExpression)
    (cs : list AbstractExpression) :
  ∃ m, max_element_from return_type_lt (Some c) (Some <$> cs) = Ok (Some m) ∧
       m ∈ c :: cs ∧
       ∀ x, x ∈ c :: cs →
            TypeId_underlying (GetReturnValueType x)
              ≤ TypeId_underlying (GetReturnValueType m).
Proof.
  revert c. induction cs as [|x cs IH]; intros c; simpl.
  - exists c. split; [done|]. split; [by left|].
    intros y Hy%list_elem_of_singleton. subst. lia.
  - unfold TypeId_lt.
    destruct (Z.ltb_spec (TypeId_underlying (GetReturnValueType c))
                (TypeId_underlying (GetReturnValueType x))) as [Hlt|Hge].
    + destruct (IH x) as (m & Hm & Hin & Hmax).
      exists m. split; [done|]. split; [by right|].
      intros y [->|Hy]%elem_of_cons; [|by apply Hmax].
      specialize (Hmax x (list_elem_of_here _ _)). lia.
    + destruct (IH c) as (m & Hm & Hin & Hmax).
      exists m. split; [done|]. split.
      * apply elem_of_cons in Hin as [->|Hin]; [by left|by do 2 right].
      * intros y [->|[->|Hy]%elem_of_cons]%elem_of_cons.
        -- apply Hmax. by left.
        -- specialize (Hmax c (list_elem_of_here _ _)). lia.
        -- apply Hmax. by right.
Qed.

(** C5: for the kinds NOT, IS NULL, IS NOT NULL and EXISTS the derivation
    returns the node with the return type BOOLEAN, whatever the children
    are; for every other kind with at least one child it returns the node
    with the greatest return type among the children, and it fails fatally,
    on the assertion, when that type lies above DECIMAL.  No other member of
    the node changes. *)
Theorem DeriveReturnValueType_spec (this : AbstractExpression) :
  (expression_type_ this = OPERATOR_NOT ∨
   expression_type_ this = OPERATOR_IS_NULL ∨
   expression_type_ this = OPERATOR_IS_NOT_NULL ∨
   expression_type_ this = OPERATOR_EXISTS →
   ∃ r, DeriveReturnValueType this = Ok r ∧
        return_value_type_ r = BOOLEAN ∧
        expression_type_ r = expression_type_ this ∧
        expression_name_ r = expression_name_ this ∧
        alias_ r = alias_ this ∧
        depth_ r = depth_ this ∧
        has_subquery_ r = has_subquery_ this ∧
        children_ r = children_ this ∧
        class_ r = class_ this) ∧
  (expression_type_ this ≠ OPERATOR_NOT →
   expression_type_ this ≠ OPERATOR_IS_NULL →
   expression_type_ this ≠ OPERATOR_IS_NOT_NULL →
   expression_type_ this ≠ OPERATOR_EXISTS →
   ∀ cs : list AbstractExpression,
     cs ≠ [] → children_ this = Some <$> cs →
     ∃ m : TypeId,
       m ∈ return_value_type_ <$> cs ∧
       (∀ c, c ∈ cs →
             TypeId_underlying (return_value_type_ c) ≤ TypeId_underlying m) ∧
       if TypeId_underlying m <=? TypeId_underlying DECIMAL
       then ∃ r, DeriveReturnValueType this = Ok r ∧
                 return_value_type_ r = m ∧
                 expression_type_ r = expression_type_ this ∧
                 expression_name_ r = expression_name_ this ∧
                 alias_ r = alias_ this ∧
                 depth_ r = depth_ this ∧
                 has_subquery_ r = has_subquery_ this ∧
                 children_ r = children_ this ∧
                 class_ r = class_ this
       else DeriveReturnValueType this
            = Fatal (AssertionFailure
                       "Invalid operand type in Operator Expression.")).
Proof.
  split.
  - intros Hkind.
    assert (Hu : is_unary_logical (GetExpressionType this) = true).
    { unfold GetExpressionType.
      destruct Hkind as [-> | [-> | [-> | ->]]]; reflexivity. }
    unfold DeriveReturnValueType. rewrite Hu.
    eexists. split; [reflexivity|]. by destruct this.
  - intros Hnot Hnull Hnotnull Hexists [|c cs] Hne Hcs; [done|].
    assert (Hu : is_unary_logical (GetExpressionType this) = false).
    { unfold is_unary_logical, GetExpressionType.
      by rewrite !bool_decide_eq_false_2. }
    unfold DeriveReturnValueType, GetChildren. rewrite Hu, Hcs.
    change (Some <$> c :: cs) with (Some c :: (Some <$> cs)).
    destruct (max_element_from_greatest c cs) as (m & Hm & Hin & Hmax).
    exists (return_value_type_ m).
    split; [by apply (list_elem_of_fmap_2 _ _ _ Hin)|].
    split; [done|].
    unfold max_element. rewrite Hm. simpl. unfold TypeId_le, GetReturnValueType.
    destruct (_ <=? _); [|done].
    simpl. eexists. split; [reflexivity|]. by destruct this.
Qed.

Lemma DeriveReturnValueType_spec_witness :
  (∃ r, DeriveReturnValueType not_x = Ok r ∧
        return_value_type_ r = BOOLEAN ∧
        expression_type_ r = expression_type_ not_x ∧
        expression_name_ r = expression_name_ not_x ∧
        alias_ r = alias_ not_x ∧
        depth_ r = depth_ not_x ∧
        has_subquery_ r = has_subquery_ not_x ∧
        children_ r = children_ not_x ∧
        class_ r = class_ not_x) ∧
  (∃ m : TypeId,
     m ∈ return_value_type_ <$> [int_1; dec_2] ∧
     (∀ c, c ∈ [int_1; dec_2] →
           TypeId_underlying (return_value_type_ c) ≤ TypeId_underlying m) ∧
     if TypeId_underlying m <=? TypeId_underlying DECIMAL
     then ∃ r, DeriveReturnValueType plus_1_2 = Ok r ∧
               return_value_type_ r = m ∧
               expression_type_ r = expression_type_ plus_1_2 ∧
               expression_name_ r = expression_name_ plus_1_2 ∧
               alias_ r = alias_ plus_1_2 ∧
               depth_ r = depth_ plus_1_2 ∧
               has_subquery_ r = has_subquery_ plus_1_2 ∧
               children_ r = children_ plus_1_2 ∧
               class_ r = class_ plus_1_2
     else DeriveReturnValueType plus_1_2
          = Fatal (AssertionFailure
                     "Invalid operand type in Operator Expression.")).
Proof.
  split.
  - apply (proj1 (DeriveReturnValueType_spec not_x)). left. reflexivity.
  - apply (proj2 (DeriveReturnValueType_spec plus_1_2)).
    + discriminate.
    + discriminate.
    + discriminate.
    + discriminate.
    + discriminate.
    + reflexivity.
Defined.

(** Type promotion of the specification: INTEGER with DECIMAL gives DECIMAL,
    NOT gives BOOLEAN, and an operand above DECIMAL is fatal. *)
Example DeriveReturnValueType_promotion :
  return_value_type_ <$> DeriveReturnValueType plus_1_2 = Ok DECIMAL ∧
  return_value_type_ <$> DeriveReturnValueType not_x = Ok BOOLEAN ∧
  DeriveReturnValueType
    (AbstractExpression_new OPERATOR_CONCAT INTEGER [Some int_1; Some str_3]
       OtherExpression)
  = Fatal (AssertionFailure "Invalid operand type in Operator Expression.").
Proof. repeat split. Qed.

(** ** Replacing a child *)

Lemma static_cast_int_small z : 0 ≤ z ≤ INT_MAX → static_cast_int z = z.
Proof.
  unfold static_cast_int, INT_MAX. intros Hz.
  rewrite Z.mod_small; lia.
Qed.



(** [SetChild] beyond the end and inside the vector, evaluated. *)
Example SetChild_resize :
  children_ <$> SetChild plus_1_2 3 (Some sum_x)
    = Ok [Some int_1; Some dec_2; None; Some sum_x] ∧
  children_ <$> SetChild plus_1_2 0 (Some sum_x)
    = Ok [Some sum_x; Some dec_2] ∧
  SetChild plus_1_2 (-1) (Some sum_x) = Fatal OutOfBounds ∧
  SetChild plus_1_2 0 None = Fatal NullDereference.
Proof. repeat split. Qed.

(** ** Equality and hashing *)

Lemma Hash_unfold `{!HashUtil} this :
  Hash this =
  hash ← Hash_children (λ c, Hash c) (children_ this)
           (Hash_ExpressionType (expression_type_ this));
  Ok (CombineHashes
        (CombineHashes
           (CombineHashes
              (CombineHashes
                 (CombineHashes hash (Hash_TypeId (return_value_type_ this)))
                 (Hash_string (expression_name_ this)))
              (Hash_string (alias_ this)))
           (Hash_int (depth_ this)))
        (Hash_char (char_of_bool (has_subquery_ this)))).
Proof. by destruct this. Qed.

(** What [operator==] establishes when it answers [true]. *)
Lemma operator_eq_true this rhs :
  operator_eq this rhs = Ok true →
  expression_type_ this = expression_type_ rhs ∧
  alias_ this = alias_ rhs ∧
  expression_name_ this = expression_name_ rhs ∧
  depth_ this = depth_ rhs ∧
  has_subquery_ this = has_subquery_ rhs ∧
  length (children_ this) = length (children_ rhs) ∧
  children_equal (λ a b, operator_eq a b)
    (bool_decide (return_value_type_ this = return_value_type_ rhs))
    (children_ this) (children_ rhs) = Ok true.
Proof.
  rewrite operator_eq_unfold.
  repeat (case_bool_decide; simpl; [|discriminate]).
  by intros.
Qed.

Section hashing.
Context `{!HashUtil}.

Lemma children_equal_hash (last : bool) (l r : list ExprPtr) :
  Forall (on_child (λ a, ∀ b, operator_eq a b = Ok true → same_hash a b)) l →
  length l = length r →
  children_equal (λ a b, operator_eq a b) last l r = Ok true →
  last = true ∧
  ∀ h0, ∃ h, Hash_children (λ c, Hash c) l h0 = Ok h ∧
             Hash_children (λ c, Hash c) r h0 = Ok h.
Proof.
  revert r. induction l as [|x l IH]; intros [|y r] Hall Hlen Heq;
    simplify_eq/=.
  - split; [done|]. intros h0. by exists h0.
  - inversion Hall as [|? ? Hx Hl]; subst.
    destruct x as [a|], y as [b|]; try done.
    apply bind_Ok in Heq as (e & He & Heq).
    destruct e; [|done]. simpl in Heq.
    destruct (IH r Hl Hlen Heq) as [-> Hrest].
    split; [done|]. intros h0.
    destruct (Hx b He) as (h & Ha & Hb).
    destruct (Hrest (CombineHashes h0 h)) as (h' & Hl' & Hr').
    exists h'. unfold Hash_children in *. simpl.
    rewrite Ha, Hb. simpl. by rewrite Hl', Hr'.
Qed.

(** C4: two expressions that [operator==] finds equal have the same hash. *)
Theorem Hash_respects_operator_eq (a b : AbstractExpression) :
  operator_eq a b = Ok true → ∃ h, Hash a = Ok h ∧ Hash b = Ok h.
Proof.
  revert b. induction a as [a IH] using AbstractExpression_children_ind.
  intros b (Ht & Hal & Hn & Hd & Hs & Hlen & Hcs)%operator_eq_true.
  destruct (children_equal_hash _ _ _ IH Hlen Hcs) as [Hr Hh].
  apply bool_decide_eq_true in Hr.
  destruct (Hh (Hash_ExpressionType (expression_type_ a))) as (h & Ha & Hb).
  rewrite !Hash_unfold, <- Ht, <- Hal, <- Hn, <- Hd, <- Hs, <- Hr, Ha, Hb.
  simpl. by eexists.
Qed.
End hashing.

Lemma Hash_respects_operator_eq_witness :
  ∃ h, @Hash toy_hash plus_1_2 = Ok h ∧
       @Hash toy_hash (set_children plus_1_2 [Some int_1; Some dec_2]) = Ok h.
Proof.
  apply (@Hash_respects_operator_eq toy_hash). reflexivity.
Defined.

(** ** The conjunctive fold *)

Lemma foldlM_cons {A B} (f : B → A → result B) x l b :
  foldlM f (x :: l) b = f b x ≫= foldlM f l.
Proof. reflexivity. Qed.

Lemma JoinAnnotatedExprs_step_copy children a p :
  GetExpr a = Some p → null_free p = true →
  JoinAnnotatedExprs_step children a
  = Ok [Some (ConjunctionExpression_new CONJUNCTION_AND (children ++ [Some p]))].
Proof.
  intros Ha Hp. unfold JoinAnnotatedExprs_step. rewrite Ha. simpl.
  by rewrite (Copy_null_free p Hp).
Qed.

Lemma JoinAnnotatedExprs_loop (rest : list AnnotatedExpression)
    (ps : list AbstractExpression) (acc : AbstractExpression) :
  GetExpr <$> rest = Some <$> ps →
  Forall (λ e, null_free e = true) ps →
  foldlM JoinAnnotatedExprs_step rest [Some acc]
  = Ok [Some (left_fold_AND acc ps)].
Proof.
  revert ps acc. induction rest as [|a rest IH]; intros [|p ps] acc Hex Hnf;
    try done.
  rewrite !fmap_cons in Hex. injection Hex as Ha Hrest.
  inversion Hnf as [|? ? Hp Hps]; subst.
  rewrite foldlM_cons, (JoinAnnotatedExprs_step_copy _ a p Ha Hp).
  exact (IH ps (AND acc p) Hrest Hps).
Qed.

(** C6: for annotated expressions [p1, ..., pn], [n >= 1], the result is the
    tree [AND(...AND(AND(c1, c2), c3)..., cn)] over the copies [ci] of the
    expressions, which equals the same fold over the expressions themselves;
    for the empty sequence the result is the null pointer. *)
Theorem JoinAnnotatedExprs_left_fold :
  JoinAnnotatedExprs [] = Ok None ∧
  ∀ (exprs : list AnnotatedExpression) (p1 : AbstractExpression)
    (ps : list AbstractExpression),
    GetExpr <$> exprs = Some <$> p1 :: ps →
    Forall (λ e, null_free e = true) (p1 :: ps) →
    ∃ c1 cs,
      Copy p1 = Ok c1 ∧
      Forall2 (λ p c, Copy p = Ok c) ps cs ∧
      JoinAnnotatedExprs exprs = Ok (Some (left_fold_AND c1 cs)) ∧
      left_fold_AND c1 cs = left_fold_AND p1 ps.
Proof.
  split; [done|].
  intros [|first rest] p1 ps Hex Hnf; [done|].
  rewrite !fmap_cons in Hex. injection Hex as Hfirst Hrest.
  inversion Hnf as [|? ? Hp Hps]; subst.
  exists p1, ps. split; [by apply Copy_null_free|].
  split.
  { clear Hrest Hnf. induction Hps as [|p ps Hp' _ IH]; constructor;
      [by apply Copy_null_free|done]. }
  split; [|done].
  unfold JoinAnnotatedExprs. rewrite Hfirst. cbn -[foldlM].
  rewrite (Copy_null_free p1 Hp). cbn -[foldlM].
  by rewrite (JoinAnnotatedExprs_loop rest ps p1 Hrest Hps).
Qed.

Lemma JoinAnnotatedExprs_left_fold_witness :
  ∃ c1 cs,
    Copy col_x = Ok c1 ∧
    Forall2 (λ p c, Copy p = Ok c) [int_1; sum_x] cs ∧
    JoinAnnotatedExprs [annotate col_x; annotate int_1; annotate sum_x]
      = Ok (Some (left_fold_AND c1 cs)) ∧
    left_fold_AND c1 cs = left_fold_AND col_x [int_1; sum_x].
Proof.
  apply (proj2 JoinAnnotatedExprs_left_fold).
  - reflexivity.
  - repeat constructor.
Defined.

(** The fold of three predicates is [AND(AND(p1, p2), p3)]; a single
    predicate is returned as its copy. *)
Example JoinAnnotatedExprs_three :
  JoinAnnotatedExprs [annotate col_x; annotate int_1; annotate sum_x]
    = Ok (Some (AND (AND col_x int_1) sum_x)) ∧
  JoinAnnotatedExprs [annotate col_x] = Ok (Some col_x).
Proof. repeat split. Qed.

(** ** Bottom-up evaluation *)

Lemma Logged_bind_Ok {A B} (m : Logged A) (k : A → Logged B) log b log' :
  (m ≫= k) log = Ok (b, log') ↔
  ∃ a log1, m log = Ok (a, log1) ∧ k a log1 = Ok (b, log').
Proof.
  unfold mbind, Logged_bind. destruct (m log) as [[a log1]|f]; split.
  - intros H. by exists a, log1.
  - by intros (a' & l' & [= <- <-] & H).
  - discriminate.
  - by intros (a' & l' & [=] & _).
Qed.

Lemma mapM_Logged_length {A B} (f : A → Logged B) (l : list A) log k log' :
  mapM f l log = Ok (k, log') → length k = length l.
Proof.
  revert log k. induction l as [|x l IH]; intros log k; simpl.
  - unfold mret, Logged_ret. intros ?. by simplify_eq.
  - intros (y & log1 & _ & H)%Logged_bind_Ok.
    apply Logged_bind_Ok in H as (k' & log2 & Hk' & H).
    unfold mret, Logged_ret in H. simplify_eq.
    simpl. f_equal. by eapply IH.
Qed.

Lemma EvaluateExpression_node_unfold `{!OptimizerDefs, !ChildArity}
    (expr_maps : list ExprMap) (expr : AbstractExpression) :
  EvaluateExpression_node expr_maps expr =
  (evaluated ← mapM (EvaluateExpression expr_maps) (children_ expr);
   let children := replicate (GetChildrenSize expr) None ++ evaluated in
   let rebuild : Logged ExprPtr :=
     _ ← lift (TERRIER_ASSERT
                 (negb (bool_decide (GetExpressionType expr = VALUE_TUPLE)))
                 "DerivedValueExpression should not be present");
     e ← lift (CopyWithChildren expr children);
     mret (Some e) in
   if bool_decide (GetExpressionType expr = COLUMN_VALUE) then
     _ ← lift (TERRIER_ASSERT (is_ColumnValueExpression expr)
                 "expr should be ColumnValueExpression");
     _ ← lift (TERRIER_ASSERT (bool_decide (GetChildrenSize expr = 0%nat))
                 "ColumnValueExpression should have 0 children");
     match EvaluateExpression_find expr_maps expr 0 with
     | Some (tuple_idx, second) =>
         mret (Some (DerivedValueExpression_new (GetReturnValueType expr)
                       tuple_idx (static_cast_int (Z.of_N second))))
     | None => _ ← OPTIMIZER_LOG_WARN unbound_warning; rebuild
     end
   else if IsAggregateExpression (GetExpressionType expr) then rebuild
   else if bool_decide (GetExpressionType expr = FUNCTION) then rebuild
   else if bool_decide (GetExpressionType expr = OPERATOR_CASE_EXPR) then
     match class_ expr with
     | CaseExpression when_clauses default_clause =>
         _ ← lift (TERRIER_ASSERT (bool_decide (GetChildrenSize expr = 0%nat))
                     "CaseExpression should have 0 children");
         clauses ← mapM (λ clause : ExprPtr * ExprPtr,
                           cond ← EvaluateExpression expr_maps (fst clause);
                           res ← EvaluateExpression expr_maps (snd clause);
                           mret (cond, res)) when_clauses;
         def_cond ← EvaluateExpression expr_maps default_clause;
         mret (Some (CaseExpression_new (GetReturnValueType expr) clauses def_cond))
     | _ => lift (Fatal (AssertionFailure "expr should be CaseExpression"))
     end
   else rebuild).
Proof. by destruct expr. Qed.

(** The kinds that [EvaluateExpression] rebuilds over the evaluated
    children: neither column reference, aggregate, function nor case. *)
Lemma EvaluateExpression_node_rebuilt `{!OptimizerDefs, !ChildArity}
    (expr_maps : list ExprMap) (expr r : AbstractExpression) log log' :
  GetExpressionType expr ≠ COLUMN_VALUE →
  IsAggregateExpression (GetExpressionType expr) = false →
  GetExpressionType expr ≠ FUNCTION →
  GetExpressionType expr ≠ OPERATOR_CASE_EXPR →
  EvaluateExpression expr_maps (Some expr) log = Ok (Some r, log') →
  ∃ evaluated,
    mapM (EvaluateExpression expr_maps) (children_ expr) log
      = Ok (evaluated, log') ∧
    children_ r = replicate (GetChildrenSize expr) None ++ evaluated ∧
    length (children_ r) = (2 * GetChildrenSize expr)%nat.
Proof.
  intros Hcol Hagg Hfun Hcase. unfold EvaluateExpression.
  rewrite EvaluateExpression_node_unfold.
  intros (evaluated & log1 & Hev & Hk)%Logged_bind_Ok. simpl in Hk.
  rewrite (bool_decide_eq_false_2 _ Hcol), Hagg,
    (bool_decide_eq_false_2 _ Hfun), (bool_decide_eq_false_2 _ Hcase) in Hk.
  apply Logged_bind_Ok in Hk as ([] & log2 & Hassert & Hk).
  apply Logged_bind_Ok in Hk as (e & log3 & Hcopy & Hret).
  unfold mret, Logged_ret in Hret.
  unfold lift, TERRIER_ASSERT in Hassert.
  destruct (negb _); simplify_eq/=.
  unfold lift, CopyWithChildren, TERRIER_ASSERT in Hcopy.
  destruct (arity_compatible _ _); simplify_eq/=.
  exists evaluated. split; [done|]. split; [done|].
  rewrite length_app, length_replicate, (mapM_Logged_length _ _ _ _ _ Hev).
  unfold GetChildrenSize. lia.
Qed.

(** C3: the addition of two constants is rebuilt over four children, two
    null pointers followed by the two evaluated constants, or the rebuilding
    fails on the child count; it is never rebuilt over the two evaluated
    constants alone. *)
Theorem EvaluateExpression_children_doubled `{!OptimizerDefs, !ChildArity}
    (expr_maps : list ExprMap) (log : list string) :
  EvaluateExpression expr_maps (Some plus_1_2) log =
    (if arity_compatible VALUE_CONSTANT 0 && arity_compatible OPERATOR_PLUS 4
     then Ok (Some (set_children plus_1_2
                      [None; None; Some int_1; Some dec_2]), log)
     else Fatal (AssertionFailure
                   "child count incompatible with the arity of the operator")) ∧
  EvaluateExpression expr_maps (Some plus_1_2) log
    ≠ Ok (Some (set_children plus_1_2 [Some int_1; Some dec_2]), log).
Proof.
  assert (Heq : EvaluateExpression expr_maps (Some plus_1_2) log =
    (if arity_compatible VALUE_CONSTANT 0 && arity_compatible OPERATOR_PLUS 4
     then Ok (Some (set_children plus_1_2
                      [None; None; Some int_1; Some dec_2]), log)
     else Fatal (AssertionFailure
                   "child count incompatible with the arity of the operator"))).
  { destruct (arity_compatible VALUE_CONSTANT 0) eqn:Hleaf;
      destruct (arity_compatible OPERATOR_PLUS 4) eqn:Hplus;
      vm_compute; vm_compute in Hleaf, Hplus; rewrite Hleaf; try rewrite Hplus;
      reflexivity. }
  split; [done|]. rewrite Heq. by destruct (_ && _).
Qed.

Lemma EvaluateExpression_find_none `{!OptimizerDefs} (expr_maps : list ExprMap)
    (expr : AbstractExpression) (tuple_idx : Z) :
  Forall (λ m, ExprMap_find m expr = None) expr_maps →
  EvaluateExpression_find expr_maps expr tuple_idx = None.
Proof.
  intros Hall. revert tuple_idx.
  induction Hall as [|m ms Hm _ IH]; intros tuple_idx; simpl; [done|].
  by rewrite Hm.
Qed.

(** The call on a column reference without children that none of the maps
    contains: the warning is logged and the call returns the node as it is,
    not rewritten to a positional reference. *)
Theorem EvaluateExpression_unbound_column `{!OptimizerDefs, !ChildArity}
    (expr_maps : list ExprMap) (expr : AbstractExpression) (log : list string) :
  GetExpressionType expr = COLUMN_VALUE →
  is_ColumnValueExpression expr = true →
  children_ expr = [] →
  arity_compatible COLUMN_VALUE 0 = true →
  Forall (λ m, ExprMap_find m expr = None) expr_maps →
  EvaluateExpression expr_maps (Some expr) log
    = Ok (Some expr, log ++ [unbound_warning]).
Proof.
  intros Hty Hcls Hcs Har Hnone. unfold EvaluateExpression.
  rewrite EvaluateExpression_node_unfold.
  rewrite (EvaluateExpression_find_none _ _ _ Hnone).
  unfold GetChildrenSize, CopyWithChildren, GetExpressionType in *.
  rewrite Hcs, Hty, Hcls. simpl.
  unfold mbind, Logged_bind, mret, Logged_ret, lift, OPTIMIZER_LOG_WARN.
  simpl. rewrite Har. simpl.
  destruct expr; simpl in *. by subst.
Qed.

Lemma EvaluateExpression_unbound_column_witness :
  @EvaluateExpression list_defs operator_arity [[(col_y, 0%N)]; []]
    (Some col_x) []
  = Ok (Some col_x, [] ++ [unbound_warning]).
Proof.
  apply (@EvaluateExpression_unbound_column list_defs operator_arity).
  - reflexivity.
  - reflexivity.
  - reflexivity.
  - reflexivity.
  - repeat constructor.
Defined.

(** A bound column reference becomes a positional reference into the first
    map that contains it; an unbound one stays and is logged. *)
Example EvaluateExpression_columns :
  @EvaluateExpression list_defs operator_arity
     [[(col_y, 0%N)]; [(col_y, 3%N); (col_x, 5%N)]] (Some col_x) []
    = Ok (Some (DerivedValueExpression_new INTEGER 1 5), []) ∧
  @EvaluateExpression list_defs operator_arity [[(col_y, 0%N)]] (Some col_x) []
    = Ok (Some col_x, [unbound_warning]).
Proof. repeat split. Qed.

(** C8: in [x + 1], with the column [x] contained in none of the maps, the
    call on the column logs the warning and returns the column, but the
    addition above it is rebuilt over [null, null, x, 1]: the column sits at
    position 2 of four children, not at position 0 of two, or the rebuilding
    fails fatally on the child count.  The evaluation never returns [x + 1]
    with the column at its position. *)
Theorem EvaluateExpression_unbound_column_displaced
    `{!OptimizerDefs, !ChildArity}
    (expr_maps : list ExprMap) (log : list string) :
  Forall (λ m, ExprMap_find m col_x = None) expr_maps →
  EvaluateExpression expr_maps (Some plus_x_1) log =
    (if arity_compatible COLUMN_VALUE 0 && arity_compatible VALUE_CONSTANT 0
        && arity_compatible OPERATOR_PLUS 4
     then Ok (Some (MkExpression OPERATOR_PLUS "" "" INTEGER (-1) false
                      [None; None; Some col_x; Some int_1] OtherExpression),
              log ++ [unbound_warning])
     else Fatal (AssertionFailure
                   "child count incompatible with the arity of the operator")) ∧
  EvaluateExpression expr_maps (Some plus_x_1) log
    ≠ Ok (Some (MkExpression OPERATOR_PLUS "" "" INTEGER (-1) false
                  [Some col_x; Some int_1] OtherExpression),
          log ++ [unbound_warning]).
Proof.
  intros Hnone.
  pose proof (EvaluateExpression_find_none expr_maps col_x 0 Hnone) as Hfind.
  assert (Heq : EvaluateExpression expr_maps (Some plus_x_1) log =
    (if arity_compatible COLUMN_VALUE 0 && arity_compatible VALUE_CONSTANT 0
        && arity_compatible OPERATOR_PLUS 4
     then Ok (Some (MkExpression OPERATOR_PLUS "" "" INTEGER (-1) false
                      [None; None; Some col_x; Some int_1] OtherExpression),
              log ++ [unbound_warning])
     else Fatal (AssertionFailure
                   "child count incompatible with the arity of the operator"))).
  { unfold EvaluateExpression. rewrite EvaluateExpression_node_unfold.
    change (children_ plus_x_1) with [Some col_x; Some int_1].
    simpl mapM. unfold col_x in Hfind. rewrite Hfind.
    destruct (arity_compatible COLUMN_VALUE 0) eqn:Hcol;
      destruct (arity_compatible VALUE_CONSTANT 0) eqn:Hleaf;
      destruct (arity_compatible OPERATOR_PLUS 4) eqn:Hplus;
      vm_compute; vm_compute in Hcol, Hleaf, Hplus;
      rewrite Hcol; try rewrite Hleaf; try rewrite Hplus; reflexivity. }
  split; [done|]. rewrite Heq. by destruct (_ && _).
Qed.

Lemma EvaluateExpression_unbound_column_displaced_witness :
  (@EvaluateExpression list_defs operator_arity [[(col_y, 0%N)]; []]
     (Some plus_x_1) []
   = Fatal (AssertionFailure
              "child count incompatible with the arity of the operator") ∧
   @EvaluateExpression list_defs operator_arity [[(col_y, 0%N)]; []]
     (Some plus_x_1) []
   ≠ Ok (Some (MkExpression OPERATOR_PLUS "" "" INTEGER (-1) false
                 [Some col_x; Some int_1] OtherExpression),
         [unbound_warning])) ∧
  (@EvaluateExpression list_defs unchecked_arity [[(col_y, 0%N)]; []]
     (Some plus_x_1) []
   = Ok (Some (MkExpression OPERATOR_PLUS "" "" INTEGER (-1) false
                 [None; None; Some col_x; Some int_1] OtherExpression),
         [unbound_warning]) ∧
   @EvaluateExpression list_defs unchecked_arity [[(col_y, 0%N)]; []]
     (Some plus_x_1) []
   ≠ Ok (Some (MkExpression OPERATOR_PLUS "" "" INTEGER (-1) false
                 [Some col_x; Some int_1] OtherExpression),
         [unbound_warning])).
Proof.
  split.
  - apply (@EvaluateExpression_unbound_column_displaced
             list_defs operator_arity [[(col_y, 0%N)]; []] []).
    repeat constructor.
  - apply (@EvaluateExpression_unbound_column_displaced
             list_defs unchecked_arity [[(col_y, 0%N)]; []] []).
    repeat constructor.
Defined.

(** ** Column-to-positional rewriting *)

Lemma ConvertExprCVNodes_node_unfold `{!OptimizerDefs, !ChildArity}
    (maps : list ExprMap) (expr : AbstractExpression) :
  ConvertExprCVNodes_node maps expr =
  (children ←
     mapM (λ child_expr : ExprPtr,
             inserted ← ConvertExprCVNodes_scan maps expr child_expr 0;
             match inserted with
             | Some dve => Ok (Some dve)
             | None => ConvertExprCVNodes child_expr maps
             end) (children_ expr);
   _ ← TERRIER_ASSERT (bool_decide (length children = GetChildrenSize expr))
         "size not equal after walk";
   CopyWithChildren expr children).
Proof.
  destruct expr as [t n a r d h cs cl]. cbn -[mapM ConvertExprCVNodes_scan].
  f_equal.
Qed.

(** The scan inserts a positional reference exactly for a child that is not
    a column reference and is contained in some map, with the index of the
    first such map counted from [tuple_idx]. *)
Lemma ConvertExprCVNodes_scan_Ok `{!OptimizerDefs} (maps : list ExprMap)
    (expr : AbstractExpression) (child : ExprPtr) (tuple_idx : Z)
    (inserted : ExprPtr) :
  ConvertExprCVNodes_scan maps expr child tuple_idx = Ok inserted →
  match inserted with
  | Some dve =>
      ∃ x k value_idx,
        child = Some x ∧ GetExpressionType x ≠ COLUMN_VALUE ∧
        first_containing maps x = Some k ∧
        dve = DerivedValueExpression_new (GetReturnValueType x)
                (tuple_idx + Z.of_nat k) value_idx
  | None =>
      ∀ x, child = Some x →
           GetExpressionType x = COLUMN_VALUE ∨ first_containing maps x = None
  end.
Proof.
  revert tuple_idx. induction maps as [|m ms IH]; intros tuple_idx; simpl.
  { intros [= <-]. intros x _. by right. }
  destruct child as [x|]; simpl; [|discriminate].
  unfold ExprMap_count.
  destruct (decide (GetExpressionType x = COLUMN_VALUE)) as [Hcv|Hcv].
  - rewrite (bool_decide_eq_true_2 _ Hcv). simpl. intros Hscan.
    specialize (IH _ Hscan). destruct inserted as [dve|].
    + by destruct IH as (x' & k & v & [= <-] & Hne & _).
    + intros x' [= <-]. by left.
  - rewrite (bool_decide_eq_false_2 _ Hcv). simpl.
    destruct (ExprMap_find m x) as [off|] eqn:Hfind; simpl.
    + destruct (ExprMap_find m expr) as [second|]; [|discriminate].
      intros [= <-]. exists x, 0%nat, (static_cast_int (Z.of_N second)).
      rewrite Hfind. do 3 (split; [done|]). f_equal. lia.
    + intros Hscan. specialize (IH _ Hscan). destruct inserted as [dve|].
      * destruct IH as (x' & k & v & [= <-] & Hne & Hk & ->).
        exists x, (S k), v. simpl. rewrite Hfind, Hk.
        do 3 (split; [done|]). f_equal. lia.
      * intros x' [= <-]. destruct (IH x eq_refl) as [?|Hk]; [by left|].
        right. simpl. by rewrite Hfind, Hk.
Qed.

(** The scan inserts nothing for a child that is kept; a null child is
    dereferenced as soon as there is a map to look into. *)
Lemma ConvertExprCVNodes_scan_kept `{!OptimizerDefs} (maps : list ExprMap)
    (expr : AbstractExpression) (child : ExprPtr) (tuple_idx : Z) :
  maps = [] ∨ is_Some child →
  kept_child maps child →
  ConvertExprCVNodes_scan maps expr child tuple_idx = Ok None.
Proof.
  revert tuple_idx. induction maps as [|m ms IH]; intros tuple_idx Hnn Hkept;
    simpl; [done|].
  destruct Hnn as [|[x ->]]; [done|]. simpl. unfold ExprMap_count.
  destruct (Hkept x eq_refl) as [Hcv|Hnone].
  - rewrite (bool_decide_eq_true_2 _ Hcv). simpl.
    apply IH; [right; by eexists|]. intros x' [= <-]. by left.
  - simpl in Hnone. destruct (ExprMap_find m x); [done|].
    rewrite andb_false_r.
    apply IH; [right; by eexists|]. intros x' [= <-]. right.
    by destruct (first_containing ms x).
Qed.

(** C2 (amended): when the conversion of a node returns, the result is the
    node with new children, each related to the old child at its position by
    [converted_child]; and when every child is kept, the conversion returns
    the node rebuilt over the converted children.  The input is a value and
    stays as it is. *)
Theorem ConvertExprCVNodes_children `{!OptimizerDefs, !ChildArity}
    (maps : list ExprMap) (expr : AbstractExpression) :
  (∀ r, ConvertExprCVNodes (Some expr) maps = Ok r →
        ∃ children,
          r = Some (set_children expr children) ∧
          CopyWithChildren expr children = Ok (set_children expr children) ∧
          Forall2 (converted_child maps) (children_ expr) children) ∧
  (∀ children,
     maps = [] ∨ Forall is_Some (children_ expr) →
     Forall2 (λ c c', kept_child maps c ∧ ConvertExprCVNodes c maps = Ok c')
       (children_ expr) children →
     arity_compatible (GetExpressionType expr) (length children) = true →
     ConvertExprCVNodes (Some expr) maps
       = Ok (Some (set_children expr children))).
Proof.
  unfold ConvertExprCVNodes at 1 3. rewrite ConvertExprCVNodes_node_unfold.
  split.
  - intros r (e' & Hnode & [= <-])%bind_Ok.
    apply bind_Ok in Hnode as (children & Hmap & Hrest).
    apply bind_Ok in Hrest as ([] & _ & Hcopy).
    exists children.
    assert (e' = set_children expr children) as ->.
    { unfold CopyWithChildren, TERRIER_ASSERT in Hcopy.
      destruct (arity_compatible _ _); by simplify_eq/=. }
    do 2 (split; [done|]).
    apply mapM_Ok in Hmap. eapply Forall2_impl; [exact Hmap|].
    intros c c' (inserted & Hscan & Hc)%bind_Ok.
    apply ConvertExprCVNodes_scan_Ok in Hscan.
    destruct inserted as [dve|].
    + destruct Hscan as (x & k & v & -> & Hne & Hk & ->).
      injection Hc as <-. rewrite Z.add_0_l. by constructor.
    + by constructor.
  - intros children Hnn Hall Har.
    assert (Hmap : mapM (λ child_expr : ExprPtr,
                inserted ← ConvertExprCVNodes_scan maps expr child_expr 0;
                match inserted with
                | Some dve => Ok (Some dve)
                | None => ConvertExprCVNodes child_expr maps
                end) (children_ expr) = Ok children).
    { apply mapM_Ok.
      assert (Hnn' : Forall (λ c : ExprPtr, maps = [] ∨ is_Some c) (children_ expr)).
      { destruct Hnn as [->|Hs]; [apply Forall_forall; by left|].
        eapply Forall_impl; [exact Hs|]. by right. }
      clear Hnn Har. induction Hall as [|c c' cs cs' [Hk Hc] _ IH];
        [constructor|].
      inversion Hnn' as [|? ? Hc0 Hcs0]; subst.
      constructor; [|by apply IH].
      by rewrite (ConvertExprCVNodes_scan_kept maps expr c 0 Hc0 Hk). }
    rewrite Hmap. simpl.
    rewrite bool_decide_eq_true_2
      by (unfold GetChildrenSize; symmetry; by eapply Forall2_length).
    simpl. unfold CopyWithChildren. by rewrite Har.
Qed.

Lemma ConvertExprCVNodes_children_witness :
  (∃ children,
     Some (set_children plus_sum_1
             [Some (DerivedValueExpression_new INTEGER 1 7); Some int_1])
       = Some (set_children plus_sum_1 children) ∧
     @CopyWithChildren operator_arity plus_sum_1 children
       = Ok (set_children plus_sum_1 children) ∧
     Forall2 (@converted_child list_defs operator_arity maps_sum)
       (children_ plus_sum_1) children) ∧
  @ConvertExprCVNodes list_defs operator_arity (Some plus_x_1) maps_col
    = Ok (Some (set_children plus_x_1 [Some col_x; Some int_1])).
Proof.
  split.
  - apply (proj1 (@ConvertExprCVNodes_children list_defs operator_arity
                    maps_sum plus_sum_1)).
    reflexivity.
  - apply (proj2 (@ConvertExprCVNodes_children list_defs operator_arity
                    maps_col plus_x_1)).
    + right. repeat constructor; by eexists.
    + constructor; [split; [intros x [= <-]; by left|reflexivity]|].
      constructor; [split; [intros x [= <-]; by right|reflexivity]|].
      constructor.
    + reflexivity.
Defined.

(** C2, as stated, fails: the child [x] of [x + 1] is a column reference
    that the map of input 0 contains with offset 4, and the conversion
    leaves it in place instead of the positional reference (0, 4). *)
Lemma ConvertExprCVNodes_keeps_columns :
  maps_col !! 0%nat = Some [(col_x, 4%N)] ∧
  @ExprMap_find list_defs [(col_x, 4%N)] col_x = Some 4%N ∧
  children_ plus_x_1 !! 0%nat = Some (Some col_x) ∧
  (∃ r, @ConvertExprCVNodes list_defs operator_arity (Some plus_x_1) maps_col
          = Ok (Some r) ∧
        children_ r !! 0%nat = Some (Some col_x) ∧
        children_ r !! 0%nat
          ≠ Some (Some (DerivedValueExpression_new
                          (GetReturnValueType col_x) 0 4))).
Proof.
  do 3 (split; [reflexivity|]).
  eexists. split; [reflexivity|]. split; [reflexivity|]. discriminate.
Qed.

(** The offset of an inserted positional reference is the one the map
    stores for the enclosing expression: with the aggregate at offset 2 and
    the addition over it at offset 7, the reference to the aggregate carries
    7; without an entry for the addition the conversion aborts. *)
Example ConvertExprCVNodes_offset_of_parent :
  @ConvertExprCVNodes list_defs operator_arity (Some plus_sum_1) maps_sum
    = Ok (Some (set_children plus_sum_1
                  [Some (DerivedValueExpression_new INTEGER 1 7); Some int_1])) ∧
  @ConvertExprCVNodes list_defs operator_arity (Some plus_sum_1) maps_agg
    = Fatal (AssertionFailure "Missing ColumnValueExpression...").
Proof. split; reflexivity. Qed.

(** * Further properties of the expression nodes *)

(** ** Null children and faults *)

(** A loop whose steps either succeed or dereference a null pointer. *)
Lemma mapM_null_fault {A B} (f : A → result B) (ok : A → bool)
    (g : A → B) (l : list A) :
  Forall (λ x, f x = if ok x then Ok (g x) else Fatal NullDereference) l →
  mapM f l = if forallb ok l then Ok (g <$> l) else Fatal NullDereference.
Proof.
  induction 1 as [|x l Hx _ IH]; simpl; [done|].
  rewrite Hx. destruct (ok x); simpl; [|done].
  rewrite IH. by destruct (forallb ok l).
Qed.

(** X1: [Copy] returns the tree itself when no child pointer in it is null
    and dereferences a null pointer otherwise. *)
Theorem Copy_characterised (e : AbstractExpression) :
  Copy e = if null_free e then Ok e else Fatal NullDereference.
Proof.
  induction e as [e IH] using AbstractExpression_children_ind.
  destruct e as [t n a r d h cs cl]; simpl in *.
  unfold GetChildren; simpl.
  rewrite (mapM_null_fault _
             (λ c : ExprPtr, match c with Some x => null_free x | None => false end)
             id).
  - rewrite list_fmap_id. by destruct (forallb _ cs).
  - eapply Forall_impl; [exact IH|].
    intros [x|] Hx; simpl in *; [|done].
    rewrite Hx. by destruct (null_free x).
Qed.

(** The children of a tree with a null child pointer somewhere. *)
Lemma null_free_unfold e :
  null_free e =
  forallb (λ c : ExprPtr, match c with Some x => null_free x | None => false end)
    (children_ e).
Proof. by destruct e. Qed.

(** ** [operator==] as an equivalence *)

Lemma bool_decide_eq_sym {A} `{EqDecision A} (x y : A) :
  bool_decide (x = y) = bool_decide (y = x).
Proof. apply bool_decide_ext. split; congruence. Qed.

Lemma children_equal_sym (last : bool) (l r : list ExprPtr) :
  Forall (on_child (λ x, ∀ y, operator_eq x y = operator_eq y x)) l →
  length l = length r →
  children_equal (λ a b, operator_eq a b) last l r
  = children_equal (λ a b, operator_eq a b) last r l.
Proof.
  intros Hall. revert r. induction Hall as [|x l Hx _ IH]; intros [|y r] Hlen;
    simplify_eq/=; [done|].
  destruct x as [a|], y as [b|]; try done.
  simpl in Hx. rewrite (Hx b). destruct (operator_eq b a) as [[]|]; simpl;
    [|done..].
  by apply IH.
Qed.

(** X2: [operator==] is symmetric, faults included: the two orders of the
    operands give the same answer or the same fault. *)
Theorem operator_eq_symmetric (a b : AbstractExpression) :
  operator_eq a b = operator_eq b a.
Proof.
  revert b. induction a as [a IH] using AbstractExpression_children_ind.
  intros b. rewrite !operator_eq_unfold.
  rewrite (bool_decide_eq_sym (expression_type_ b)),
    (bool_decide_eq_sym (alias_ b)), (bool_decide_eq_sym (expression_name_ b)),
    (bool_decide_eq_sym (depth_ b)), (bool_decide_eq_sym (has_subquery_ b)),
    (bool_decide_eq_sym (length (children_ b))),
    (bool_decide_eq_sym (return_value_type_ b)).
  repeat (case_bool_decide; simpl; [|done]).
  by apply children_equal_sym.
Qed.

Lemma children_equal_trans (l1 l2 l3 : list ExprPtr) (last12 last23 last13 : bool) :
  Forall (on_child (λ x, ∀ y z, operator_eq x y = Ok true →
                                operator_eq y z = Ok true →
                                operator_eq x z = Ok true)) l1 →
  (last12 = true → last23 = true → last13 = true) →
  length l1 = length l2 → length l2 = length l3 →
  children_equal (λ a b, operator_eq a b) last12 l1 l2 = Ok true →
  children_equal (λ a b, operator_eq a b) last23 l2 l3 = Ok true →
  children_equal (λ a b, operator_eq a b) last13 l1 l3 = Ok true.
Proof.
  intros Hall Hlast. revert l2 l3.
  induction Hall as [|x l1 Hx _ IH]; intros [|y l2] [|z l3] Hl12 Hl23 H12 H23;
    try done.
  - simpl in *. injection H12 as ->. injection H23 as ->. f_equal. by apply Hlast.
  - simpl in *. destruct x as [a|], y as [b|], z as [c|]; try done.
    destruct (operator_eq a b) as [[]|] eqn:Hab; try done.
    destruct (operator_eq b c) as [[]|] eqn:Hbc; try done.
    simpl in *. rewrite (Hx b c Hab Hbc). simpl.
    eapply IH; [| |exact H12|exact H23]; lia.
Qed.

(** X3: [operator==] is transitive. *)
Theorem operator_eq_transitive (a b c : AbstractExpression) :
  operator_eq a b = Ok true → operator_eq b c = Ok true →
  operator_eq a c = Ok true.
Proof.
  revert b c. induction a as [a IH] using AbstractExpression_children_ind.
  intros b c (Ht & Hal & Hn & Hd & Hs & Hlen & Hcs)%operator_eq_true
    (Ht' & Hal' & Hn' & Hd' & Hs' & Hlen' & Hcs')%operator_eq_true.
  rewrite operator_eq_unfold.
  rewrite !bool_decide_eq_true_2 by congruence. simpl.
  eapply children_equal_trans; [exact IH| |exact Hlen|exact Hlen'|exact Hcs|exact Hcs'].
  intros H1%bool_decide_eq_true H2%bool_decide_eq_true.
  apply bool_decide_eq_true. congruence.
Qed.

Lemma operator_eq_transitive_witness :
  operator_eq plus_1_2 (set_children plus_1_2 [Some int_1; Some dec_2])
  = Ok true.
Proof.
  apply (operator_eq_transitive plus_1_2
           (SetDepth plus_1_2 (-1))
           (set_children plus_1_2 [Some int_1; Some dec_2]));
    reflexivity.
Defined.

(** X4: [operator==] answers [true] only on trees without null child
    pointers. *)
Theorem operator_eq_true_null_free (a b : AbstractExpression) :
  operator_eq a b = Ok true → null_free a = true ∧ null_free b = true.
Proof.
  revert b. induction a as [a IH] using AbstractExpression_children_ind.
  intros b (_ & _ & _ & _ & _ & Hlen & Hcs)%operator_eq_true.
  rewrite (null_free_unfold a), (null_free_unfold b).
  revert Hlen Hcs. generalize (bool_decide (return_value_type_ a = return_value_type_ b)).
  generalize (children_ b). induction IH as [|x l Hx _ IHl]; intros [|y r] last Hlen Hcs;
    simplify_eq/=; [done|].
  destruct x as [x|], y as [y|]; try done.
  destruct (operator_eq x y) as [[]|] eqn:Hxy; try done. simpl in *.
  destruct (Hx y Hxy) as [-> ->]. simpl. by eapply IHl.
Qed.

Lemma operator_eq_true_null_free_witness :
  null_free plus_sum_1 = true ∧ null_free plus_sum_1 = true.
Proof. apply (operator_eq_true_null_free plus_sum_1 plus_sum_1). reflexivity. Defined.

Lemma Hash_children_defined `{!HashUtil} (cs : list ExprPtr) (h0 : hash_t) :
  Forall (on_child (λ x,
            match Hash x with
            | Ok _ => null_free x = true
            | Fatal f => f = NullDereference ∧ null_free x = false
            end)) cs →
  match Hash_children (λ c, Hash c) cs h0 with
  | Ok _ =>
      forallb (λ c : ExprPtr, match c with Some x => null_free x | None => false end)
        cs = true
  | Fatal f =>
      f = NullDereference ∧
      forallb (λ c : ExprPtr, match c with Some x => null_free x | None => false end)
        cs = false
  end.
Proof.
  intros Hall. revert h0. induction Hall as [|c cs Hc _ IH]; intros h0;
    [done|].
  unfold Hash_children in *. rewrite foldlM_cons.
  destruct c as [x|]; simpl in *; [|done].
  destruct (Hash x) as [h|f]; simpl.
  - rewrite Hc. simpl. apply IH.
  - by destruct Hc as [-> ->].
Qed.

(** X5: [Hash] returns a hash on exactly the trees without null child
    pointers; on the others it dereferences a null pointer. *)
Theorem Hash_defined `{!HashUtil} (e : AbstractExpression) :
  match Hash e with
  | Ok _ => null_free e = true
  | Fatal f => f = NullDereference ∧ null_free e = false
  end.
Proof.
  induction e as [e IH] using AbstractExpression_children_ind.
  rewrite Hash_unfold, null_free_unfold.
  pose proof (Hash_children_defined (children_ e)
                (Hash_ExpressionType (expression_type_ e)) IH) as Hcs.
  by destruct (Hash_children _ _ _).
Qed.

(** ** More on the return type of an operator *)

Lemma DeriveReturnValueType_SetReturnValueType this m :
  DeriveReturnValueType (SetReturnValueType this m) = DeriveReturnValueType this.
Proof. by destruct this. Qed.

Lemma DeriveReturnValueType_Ok this t :
  DeriveReturnValueType this = Ok t →
  ∃ m, t = SetReturnValueType this m ∧ TypeId_le m DECIMAL = true.
Proof.
  unfold DeriveReturnValueType. destruct (is_unary_logical _).
  - intros [= <-]. by exists BOOLEAN.
  - intros (p & _ & H)%bind_Ok. destruct p as [p|]; [|done].
    apply bind_Ok in H as (c & _ & H).
    unfold TERRIER_ASSERT in H.
    destruct (TypeId_le (GetReturnValueType c) DECIMAL) eqn:Hle; simplify_eq/=.
    by exists (GetReturnValueType c).
Qed.

(** X6: deriving the return type a second time changes nothing. *)
Theorem DeriveReturnValueType_idempotent (this t : AbstractExpression) :
  DeriveReturnValueType this = Ok t → DeriveReturnValueType t = Ok t.
Proof.
  intros H. destruct (DeriveReturnValueType_Ok _ _ H) as (m & -> & _).
  by rewrite DeriveReturnValueType_SetReturnValueType.
Qed.

Lemma DeriveReturnValueType_idempotent_witness :
  DeriveReturnValueType (SetReturnValueType plus_1_2 DECIMAL)
  = Ok (SetReturnValueType plus_1_2 DECIMAL).
Proof.
  apply (DeriveReturnValueType_idempotent plus_1_2). reflexivity.
Defined.

(** X7: a derivation that returns leaves a return type at or below DECIMAL
    and changes no other member of the node. *)
Theorem DeriveReturnValueType_ceiling (this t : AbstractExpression) :
  DeriveReturnValueType this = Ok t →
  TypeId_underlying (GetReturnValueType t) ≤ TypeId_underlying DECIMAL ∧
  SetReturnValueType t (GetReturnValueType this) = this.
Proof.
  intros (m & -> & Hle)%DeriveReturnValueType_Ok.
  unfold TypeId_le in Hle. apply Z.leb_le in Hle.
  split; [done|]. by destruct this.
Qed.

Lemma DeriveReturnValueType_ceiling_witness :
  TypeId_underlying (GetReturnValueType (SetReturnValueType plus_1_2 DECIMAL))
    ≤ TypeId_underlying DECIMAL ∧
  SetReturnValueType (SetReturnValueType plus_1_2 DECIMAL)
    (GetReturnValueType plus_1_2) = plus_1_2.
Proof.
  apply (DeriveReturnValueType_ceiling plus_1_2). reflexivity.
Defined.

Lemma max_element_from_null (largest : ExprPtr) (l : list ExprPtr) :
  largest = None ∨ None ∈ l →
  max_element_from return_type_lt largest l = Fatal NullDereference ∨
  max_element_from return_type_lt largest l = Ok None.
Proof.
  revert largest. induction l as [|x l IH]; intros largest Hnull; simpl.
  - destruct Hnull as [->|Hin]; [by right|]. by apply elem_of_nil in Hin.
  - destruct largest as [a|]; [|by left].
    destruct x as [b|]; [|by left]. simpl.
    destruct Hnull as [|Hin]; [done|].
    apply elem_of_cons in Hin as [|Hin]; [done|].
    apply IH. right. done.
Qed.

(** X8: for a kind other than NOT, IS NULL, IS NOT NULL and EXISTS the
    derivation reads past the end of an empty child vector and dereferences
    a null child pointer wherever it stands in the vector. *)
Theorem DeriveReturnValueType_faults (this : AbstractExpression) :
  is_unary_logical (GetExpressionType this) = false →
  (GetChildren this = [] → DeriveReturnValueType this = Fatal OutOfBounds) ∧
  (None ∈ GetChildren this →
   DeriveReturnValueType this = Fatal NullDereference).
Proof.
  intros Hk. unfold DeriveReturnValueType. rewrite Hk. split.
  - by intros ->.
  - intros Hin. destruct (GetChildren this) as [|c cs]; [by apply elem_of_nil in Hin|].
    unfold max_element.
    assert (Hnull : c = None ∨ None ∈ cs).
    { apply elem_of_cons in Hin as [<-|Hin]; [by left|by right]. }
    by destruct (max_element_from_null c cs Hnull) as [-> | ->].
Qed.

Lemma DeriveReturnValueType_faults_witness :
  DeriveReturnValueType (set_children plus_1_2 []) = Fatal OutOfBounds ∧
  DeriveReturnValueType (set_children plus_1_2 [Some int_1; None])
    = Fatal NullDereference.
Proof.
  split.
  - apply (proj1 (DeriveReturnValueType_faults (set_children plus_1_2 [])
                    eq_refl)).
    reflexivity.
  - apply (proj2 (DeriveReturnValueType_faults
                    (set_children plus_1_2 [Some int_1; None]) eq_refl)).
    simpl. apply elem_of_cons. right. apply list_elem_of_here.
Defined.

(** ** More on replacing a child *)


(** [SetChild] for an index in the range of a vector: the vector is
    brought to the greater of its size and [index + 1] and the copy is
    stored at [index]. *)
Lemma SetChild_in_range (this : AbstractExpression) (index : Z) (expr : ExprPtr) :
  0 ≤ index < INT_MAX →
  Z.of_nat (length (children_ this)) ≤ INT_MAX →
  SetChild this index expr =
    e ← deref expr;
    c ← Copy e;
    Ok (set_children this
          (<[Z.to_nat index := Some c]>
             (resize (length (children_ this) `max` S (Z.to_nat index)) None
                (children_ this)))).
Proof.
  intros Hi Hn. unfold SetChild. rewrite static_cast_int_small by lia.
  destruct (Z.geb_spec index (Z.of_nat (length (children_ this)))) as [Hge|Hlt].
  - destruct (Z.gtb_spec (index + 1) INT_MAX) as [Hov|_]; [lia|]. simpl.
    replace (Z.to_nat (index + 1)) with (S (Z.to_nat index)) by lia.
    replace (length (children_ this) `max` S (Z.to_nat index))%nat
      with (S (Z.to_nat index)) by lia.
    destruct expr as [e|]; simpl; [|done].
    destruct (Copy e) as [c|f]; simpl; [|done].
    rewrite length_resize.
    destruct (Z.leb_spec 0 index); [|lia].
    by destruct (Z.ltb_spec index (Z.of_nat (S (Z.to_nat index)))); [|lia].
  - simpl.
    replace (length (children_ this) `max` S (Z.to_nat index))%nat
      with (length (children_ this)) by lia.
    rewrite resize_all.
    destruct expr as [e|]; simpl; [|done].
    destruct (Copy e) as [c|f]; simpl; [|done].
    destruct (Z.leb_spec 0 index); [|lia].
    by destruct (Z.ltb_spec index (Z.of_nat (length (children_ this)))); [|lia].
Qed.

(** X9: after a [SetChild] that returns, [GetChild] at the same index
    returns the copy that was stored. *)
Theorem SetChild_GetChild (this t : AbstractExpression) (index : Z)
    (e : AbstractExpression) :
  0 ≤ index < INT_MAX →
  Z.of_nat (length (children_ this)) ≤ INT_MAX →
  SetChild this index (Some e) = Ok t →
  ∃ c, Copy e = Ok c ∧ GetChild t (Z.to_nat index) = Ok (Some c) ∧
       (length (children_ this) ≤ GetChildrenSize t)%nat.
Proof.
  intros Hi Hn. rewrite SetChild_in_range by done. simpl.
  intros (c & Hc & [= <-])%bind_Ok. exists c. split; [done|].
  unfold GetChild, GetChildrenSize, set_children; simpl.
  rewrite length_insert, length_resize.
  rewrite bool_decide_eq_true_2 by lia. simpl.
  rewrite list_lookup_insert_eq by (rewrite length_resize; lia).
  split; [done|lia].
Qed.

Lemma SetChild_GetChild_witness :
  ∃ c, Copy sum_x = Ok c ∧
       GetChild (set_children plus_1_2
                   [Some int_1; Some dec_2; None; Some sum_x]) (Z.to_nat 3)
         = Ok (Some c) ∧
       (length (children_ plus_1_2)
        ≤ GetChildrenSize (set_children plus_1_2
                             [Some int_1; Some dec_2; None; Some sum_x]))%nat.
Proof.
  apply (SetChild_GetChild plus_1_2 _ 3 sum_x).
  - unfold INT_MAX. lia.
  - unfold INT_MAX. simpl. lia.
  - reflexivity.
Defined.





(** ** More on the bottom-up evaluation *)

Lemma EvaluateExpression_find_first `{!OptimizerDefs} (expr_maps : list ExprMap)
    (expr : AbstractExpression) (tuple_idx : Z) (k : nat) (m : ExprMap)
    (second : N) :
  expr_maps !! k = Some m →
  ExprMap_find m expr = Some second →
  (∀ k' m', (k' < k)%nat → expr_maps !! k' = Some m' →
            ExprMap_find m' expr = None) →
  EvaluateExpression_find expr_maps expr tuple_idx
  = Some (tuple_idx + Z.of_nat k, second).
Proof.
  revert tuple_idx k. induction expr_maps as [|m0 ms IH];
    intros tuple_idx [|k] Hk Hfind Hfirst; simplify_eq/=.
  - rewrite Hfind. do 2 f_equal. lia.
  - rewrite (Hfirst 0%nat m0) by (done || lia).
    rewrite (IH (tuple_idx + 1) k Hk Hfind).
    + do 2 f_equal. lia.
    + intros k' m' Hk' Hm'. apply (Hfirst (S k') m'); [lia|done].
Qed.

(** X12: a column reference that some map contains evaluates to the
    positional reference with the index of the first such map, the offset
    that map stores and the return type of the column; nothing is logged. *)
Theorem EvaluateExpression_bound_column `{!OptimizerDefs, !ChildArity}
    (expr_maps : list ExprMap) (expr : AbstractExpression) (log : list string)
    (k : nat) (m : ExprMap) (second : N) :
  GetExpressionType expr = COLUMN_VALUE →
  is_ColumnValueExpression expr = true →
  children_ expr = [] →
  expr_maps !! k = Some m →
  ExprMap_find m expr = Some second →
  (∀ k' m', (k' < k)%nat → expr_maps !! k' = Some m' →
            ExprMap_find m' expr = None) →
  EvaluateExpression expr_maps (Some expr) log
  = Ok (Some (DerivedValueExpression_new (GetReturnValueType expr)
                (Z.of_nat k) (static_cast_int (Z.of_N second))), log).
Proof.
  intros Hty Hcls Hcs Hk Hfind Hfirst. unfold EvaluateExpression.
  rewrite EvaluateExpression_node_unfold.
  rewrite (EvaluateExpression_find_first _ _ 0 k m second Hk Hfind Hfirst).
  unfold GetChildrenSize, GetExpressionType in *.
  rewrite Hcs, Hty, Hcls. simpl.
  unfold mbind, Logged_bind, mret, Logged_ret, lift. by simpl.
Qed.

Lemma EvaluateExpression_bound_column_witness :
  @EvaluateExpression list_defs operator_arity
    [[(col_y, 0%N)]; [(col_y, 3%N); (col_x, 5%N)]] (Some col_x) []
  = Ok (Some (DerivedValueExpression_new (GetReturnValueType col_x)
                (Z.of_nat 1) (static_cast_int (Z.of_N 5))), []).
Proof.
  apply (@EvaluateExpression_bound_column list_defs operator_arity
           [[(col_y, 0%N)]; [(col_y, 3%N); (col_x, 5%N)]] col_x [] 1
           [(col_y, 3%N); (col_x, 5%N)] 5%N).
  - reflexivity.
  - reflexivity.
  - reflexivity.
  - reflexivity.
  - reflexivity.
  - intros [|k'] m' Hk' Hm'; [|lia]. by injection Hm' as <-.
Defined.

(** X13: the evaluation of a positional reference never returns: it ends
    in a fault, and when the node has no children the fault is the assertion
    that such a node is not present. *)
Theorem EvaluateExpression_positional_fatal `{!OptimizerDefs, !ChildArity}
    (expr_maps : list ExprMap) (expr : AbstractExpression) (log : list string) :
  GetExpressionType expr = VALUE_TUPLE →
  (∃ f, EvaluateExpression expr_maps (Some expr) log = Fatal f) ∧
  (children_ expr = [] →
   EvaluateExpression expr_maps (Some expr) log
   = Fatal (AssertionFailure "DerivedValueExpression should not be present")).
Proof.
  intros Hty. split.
  - destruct (EvaluateExpression expr_maps (Some expr) log) as [[r log']|f]
      eqn:Heval; [exfalso|by exists f].
    revert Heval. unfold EvaluateExpression.
    rewrite EvaluateExpression_node_unfold. unfold GetExpressionType in *.
    rewrite Hty. simpl.
    intros (ev & log1 & _ & Hk)%Logged_bind_Ok.
    by apply Logged_bind_Ok in Hk as ([] & log2 & Hassert & _).
  - unfold EvaluateExpression.
    rewrite EvaluateExpression_node_unfold. unfold GetExpressionType in *.
    rewrite Hty. simpl. intros ->. reflexivity.
Qed.

Lemma EvaluateExpression_positional_fatal_witness :
  (∃ f, @EvaluateExpression list_defs operator_arity [[(col_x, 5%N)]]
          (Some (DerivedValueExpression_new INTEGER 0 5)) [] = Fatal f) ∧
  @EvaluateExpression list_defs operator_arity [[(col_x, 5%N)]]
    (Some (DerivedValueExpression_new INTEGER 0 5)) []
  = Fatal (AssertionFailure "DerivedValueExpression should not be present").
Proof.
  split.
  - apply (proj1 (@EvaluateExpression_positional_fatal list_defs operator_arity
                    [[(col_x, 5%N)]] (DerivedValueExpression_new INTEGER 0 5) []
                    eq_refl)).
  - apply (proj2 (@EvaluateExpression_positional_fatal list_defs operator_arity
                    [[(col_x, 5%N)]] (DerivedValueExpression_new INTEGER 0 5) []
                    eq_refl)).
    reflexivity.
Defined.

(** X14: a node without children that is neither a column reference, a
    case expression nor a positional reference evaluates to itself and logs
    nothing, provided its kind admits zero children. *)
Theorem EvaluateExpression_leaf `{!OptimizerDefs, !ChildArity}
    (expr_maps : list ExprMap) (expr : AbstractExpression) (log : list string) :
  children_ expr = [] →
  GetExpressionType expr ≠ COLUMN_VALUE →
  GetExpressionType expr ≠ OPERATOR_CASE_EXPR →
  GetExpressionType expr ≠ VALUE_TUPLE →
  arity_compatible (GetExpressionType expr) 0 = true →
  EvaluateExpression expr_maps (Some expr) log = Ok (Some expr, log).
Proof.
  intros Hcs Hcol Hcase Htup Har. unfold EvaluateExpression.
  rewrite EvaluateExpression_node_unfold.
  assert (Hself : set_children expr [] = expr).
  { destruct expr; simpl in *. by subst. }
  unfold GetChildrenSize, CopyWithChildren, GetExpressionType in *.
  rewrite Hcs.
  rewrite (bool_decide_eq_false_2 _ Hcol), (bool_decide_eq_false_2 _ Hcase),
    (bool_decide_eq_false_2 _ Htup).
  destruct (IsAggregateExpression (expression_type_ expr)),
    (bool_decide (expression_type_ expr = FUNCTION));
    simpl; unfold mbind, Logged_bind, mret, Logged_ret, lift; simpl;
    by rewrite Har, Hself.
Qed.

Lemma EvaluateExpression_leaf_witness :
  @EvaluateExpression list_defs operator_arity [[(col_x, 5%N)]] (Some dec_2)
    [unbound_warning]
  = Ok (Some dec_2, [unbound_warning]).
Proof.
  apply (@EvaluateExpression_leaf list_defs operator_arity); try reflexivity;
    discriminate.
Defined.

(** ** More on the column-to-positional rewriting *)

Lemma arity_respected_unfold `{!ChildArity} e :
  arity_respected e =
  arity_compatible (GetExpressionType e) (length (children_ e)) &&
  forallb (λ c : ExprPtr,
             match c with Some x => arity_respected x | None => true end)
    (children_ e).
Proof. by destruct e. Qed.

Lemma all_kept_unfold `{!OptimizerDefs} maps e :
  all_kept maps e =
  forallb (λ c : ExprPtr,
             match c with
             | Some x =>
                 (bool_decide (GetExpressionType x = COLUMN_VALUE) ||
                  bool_decide (first_containing maps x = None)) &&
                 all_kept maps x
             | None => true
             end)
    (children_ e).
Proof. by destruct e. Qed.

(** X15: a tree in which, below the root, the maps contain column
    references only is converted to itself; without maps this holds for a
    tree with null child pointers as well. *)
Theorem ConvertExprCVNodes_nothing_to_replace `{!OptimizerDefs, !ChildArity}
    (maps : list ExprMap) (expr : AbstractExpression) :
  maps = [] ∨ null_free expr = true →
  arity_respected expr = true →
  all_kept maps expr = true →
  ConvertExprCVNodes (Some expr) maps = Ok (Some expr).
Proof.
  induction expr as [expr IH] using AbstractExpression_children_ind.
  rewrite arity_respected_unfold, all_kept_unfold, null_free_unfold.
  intros Hnn [Har Hars]%andb_true_iff Hkept.
  unfold ConvertExprCVNodes. rewrite ConvertExprCVNodes_node_unfold.
  assert (Hmap : mapM (λ child_expr : ExprPtr,
              inserted ← ConvertExprCVNodes_scan maps expr child_expr 0;
              match inserted with
              | Some dve => Ok (Some dve)
              | None => ConvertExprCVNodes child_expr maps
              end) (children_ expr) = Ok (children_ expr)).
  { apply mapM_Ok. clear Har.
    induction (children_ expr) as [|c cs IHcs]; [constructor|].
    inversion IH as [|? ? Hc IH']; subst. simpl in Hars, Hkept.
    apply andb_true_iff in Hars as [Harc Hars].
    apply andb_true_iff in Hkept as [Hkc Hkept].
    assert (Hnn' : maps = [] ∨ forallb (λ c : ExprPtr,
               match c with Some x => null_free x | None => false end) cs = true).
    { destruct Hnn as [|[_ ?]%andb_true_iff]; [by left|by right]. }
    constructor; [|by apply IHcs].
    rewrite (ConvertExprCVNodes_scan_kept maps expr c 0).
    - destruct c as [x|]; [|done]. simpl in *.
      apply andb_true_iff in Hkc as [_ Hkx].
      rewrite Hc; [done| |done|done].
      destruct Hnn as [|[? _]%andb_true_iff]; [by left|by right].
    - destruct Hnn as [|[Hcn _]%andb_true_iff]; [by left|right].
      destruct c; [by eexists|done].
    - intros x ->. apply andb_true_iff in Hkc as [Hk _].
      apply orb_true_iff in Hk as [Hk|Hk]; apply bool_decide_eq_true in Hk;
        [by left|by right]. }
  rewrite Hmap. simpl. unfold GetChildrenSize, CopyWithChildren.
  rewrite bool_decide_eq_true_2 by done. simpl. rewrite Har. simpl.
  by destruct expr.
Qed.

Lemma ConvertExprCVNodes_nothing_to_replace_witness :
  @ConvertExprCVNodes list_defs operator_arity (Some plus_x_1) maps_col
  = Ok (Some plus_x_1).
Proof.
  apply (@ConvertExprCVNodes_nothing_to_replace list_defs operator_arity).
  - right. reflexivity.
  - reflexivity.
  - reflexivity.
Defined.

(** X16: with at least one map, a node that has a null child pointer is
    never converted: the conversion ends in a fault. *)
Theorem ConvertExprCVNodes_null_child `{!OptimizerDefs, !ChildArity}
    (maps : list ExprMap) (expr : AbstractExpression) :
  maps ≠ [] → None ∈ children_ expr →
  ∃ f, ConvertExprCVNodes (Some expr) maps = Fatal f.
Proof.
  intros Hmaps Hin.
  destruct (ConvertExprCVNodes (Some expr) maps) as [r|f] eqn:Hconv;
    [exfalso|by exists f].
  revert Hconv. unfold ConvertExprCVNodes.
  rewrite ConvertExprCVNodes_node_unfold.
  intros (e' & (children & Hmap & _)%bind_Ok & _)%bind_Ok.
  apply mapM_Ok in Hmap.
  induction Hmap as [|c c' cs cs' Hc _ IHcs]; [by apply elem_of_nil in Hin|].
  apply elem_of_cons in Hin as [<-|Hin]; [|by apply IHcs].
  destruct maps as [|m ms]; [done|]. by simpl in Hc.
Qed.

Lemma ConvertExprCVNodes_null_child_witness :
  ∃ f, @ConvertExprCVNodes list_defs operator_arity
         (Some (set_children plus_1_2 [Some int_1; None])) maps_col = Fatal f.
Proof.
  apply (@ConvertExprCVNodes_null_child list_defs operator_arity).
  - discriminate.
  - simpl. apply elem_of_cons. right. apply list_elem_of_here.
Defined.

(** ** Faults of the conjunctive fold *)

Lemma JoinAnnotatedExprs_step_fault children a :
  JoinAnnotatedExprs_step children a =
  if annotated_null_free a then
    match GetExpr a with
    | Some e =>
        Ok [Some (ConjunctionExpression_new CONJUNCTION_AND (children ++ [Some e]))]
    | None => Fatal NullDereference
    end
  else Fatal NullDereference.
Proof.
  unfold JoinAnnotatedExprs_step, annotated_null_free.
  destruct (GetExpr a) as [e|]; simpl; [|done].
  rewrite Copy_characterised. by destruct (null_free e).
Qed.

Lemma JoinAnnotatedExprs_loop_fault rest children :
  forallb annotated_null_free rest = false →
  foldlM JoinAnnotatedExprs_step rest children = Fatal NullDereference.
Proof.
  revert children. induction rest as [|a rest IH]; intros children; [done|].
  rewrite foldlM_cons, JoinAnnotatedExprs_step_fault. simpl.
  destruct (annotated_null_free a) eqn:Ha; simpl; [|done].
  intros Hrest. unfold annotated_null_free in Ha.
  destruct (GetExpr a); [|done]. simpl. by apply IH.
Qed.

(** X17: when some annotated expression holds a null pointer, or a tree
    with a null child pointer, [JoinAnnotatedExprs] dereferences a null
    pointer; no other fault occurs, so the assertion on the number of
    entries never fails. *)
Theorem JoinAnnotatedExprs_faults (exprs : list AnnotatedExpression) :
  (forallb annotated_null_free exprs = false →
   JoinAnnotatedExprs exprs = Fatal NullDereference) ∧
  (∀ f, JoinAnnotatedExprs exprs = Fatal f → f = NullDereference).
Proof.
  assert (Hbad : forallb annotated_null_free exprs = false →
                 JoinAnnotatedExprs exprs = Fatal NullDereference).
  { destruct exprs as [|first rest]; [done|]. simpl.
    unfold annotated_null_free at 1.
    destruct (GetExpr first) as [e0|]; simpl; [|done].
    rewrite Copy_characterised.
    destruct (null_free e0); simpl; [|done].
    intros Hrest. by rewrite (JoinAnnotatedExprs_loop_fault rest _ Hrest). }
  split; [done|].
  intros f Hf. destruct (forallb annotated_null_free exprs) eqn:Hall.
  - exfalso. destruct exprs as [|first rest]; [done|].
    simpl in Hall. apply andb_true_iff in Hall as [Hfirst Hrest].
    unfold annotated_null_free in Hfirst.
    destruct (GetExpr first) as [e0|] eqn:He0; [|done].
    assert (Hex : ∃ ps, GetExpr <$> rest = Some <$> ps ∧
                        Forall (λ e, null_free e = true) ps).
    { clear Hf Hbad. induction rest as [|a rest IH]; [by exists []|].
      simpl in Hrest. apply andb_true_iff in Hrest as [Ha Hrest].
      destruct (IH Hrest) as (ps & Hps & Hnf).
      unfold annotated_null_free in Ha.
      destruct (GetExpr a) as [e|] eqn:He; [|done].
      exists (e :: ps). rewrite !fmap_cons, He, Hps. split; [done|].
      by constructor. }
    destruct Hex as (ps & Hps & Hnf).
    unfold JoinAnnotatedExprs in Hf. rewrite He0 in Hf. cbn -[foldlM] in Hf.
    rewrite (Copy_null_free e0 Hfirst) in Hf. cbn -[foldlM] in Hf.
    by rewrite (JoinAnnotatedExprs_loop rest ps e0 Hps Hnf) in Hf.
  - rewrite Hbad in Hf by done. by injection Hf.
Qed.

Lemma JoinAnnotatedExprs_faults_witness :
  JoinAnnotatedExprs
    [annotate col_x; {| expr_ := None; table_alias_set_ := [] |}]
  = Fatal NullDereference.
Proof.
  apply (proj1 (JoinAnnotatedExprs_faults
                  [annotate col_x; {| expr_ := None; table_alias_set_ := [] |}])).
  reflexivity.
Defined.

(** * Properties of the traversals *)

Lemma foldlM_ext {A B} (f g : B → A → result B) (l : list A) (b : B) :
  (∀ b x, f b x = g b x) → foldlM f l b = foldlM g l b.
Proof.
  intros Hfg. revert b. induction l as [|x l IH]; intros b; [done|].
  rewrite !foldlM_cons, Hfg. destruct (g b x); simpl; [apply IH|done].
Qed.

(** ** Table aliases *)

Lemma GenerateTableAliasSet_node_unfold expr table_alias_set :
  GenerateTableAliasSet_node expr table_alias_set =
  if bool_decide (GetExpressionType expr = COLUMN_VALUE) then
    match class_ expr with
    | ColumnValueExpression tbl =>
        _ ← TERRIER_ASSERT (negb (bool_decide (tbl = "")))
              "Table alias should not be empty";
        Ok ({[ tbl ]} ∪ table_alias_set)
    | _ => Fatal (AssertionFailure "tv_expr should be ColumnValueExpression")
    end
  else
    _ ← TERRIER_ASSERT
          (negb (bool_decide (GetExpressionType expr = VALUE_TUPLE)))
          "DerivedValueExpression should not exist.";
    foldlM (λ set (child : ExprPtr), GenerateTableAliasSet child set)
      (children_ expr) table_alias_set.
Proof.
  destruct expr as [t n a r d h cs cl]. cbn -[foldlM].
  destruct (bool_decide (t = COLUMN_VALUE)); [done|].
  destruct (negb _); [|done]. cbn -[foldlM].
  apply foldlM_ext. by intros s [x|].
Qed.

Lemma GenerateTableAliasSet_children_union (cs : list ExprPtr) (s : gset string) :
  Forall (on_child (λ x, ∀ s, GenerateTableAliasSet_node x s
                              = (λ t, t ∪ s) <$> GenerateTableAliasSet_node x ∅)) cs →
  foldlM (λ set (child : ExprPtr), GenerateTableAliasSet child set) cs s
  = (λ t, t ∪ s) <$>
    foldlM (λ set (child : ExprPtr), GenerateTableAliasSet child set) cs ∅.
Proof.
  intros Hall. revert s. induction Hall as [|c cs Hc _ IH]; intros s.
  - simpl. f_equal. by rewrite (left_id_L ∅ (∪)).
  - rewrite !foldlM_cons. destruct c as [x|]; simpl; [|done].
    simpl in Hc.
    change (GenerateTableAliasSet (Some x) s) with (GenerateTableAliasSet_node x s).
    change (GenerateTableAliasSet (Some x) ∅) with (GenerateTableAliasSet_node x ∅).
    rewrite (Hc s).
    destruct (GenerateTableAliasSet_node x ∅) as [t1|f]; simpl; [|done].
    rewrite (IH (t1 ∪ s)), (IH t1).
    destruct (foldlM _ cs ∅) as [t2|f]; simpl; [|done].
    f_equal. by rewrite (assoc_L (∪)).
Qed.

Lemma GenerateTableAliasSet_node_union (e : AbstractExpression) (s : gset string) :
  GenerateTableAliasSet_node e s
  = (λ t, t ∪ s) <$> GenerateTableAliasSet_node e ∅.
Proof.
  revert s. induction e as [e IH] using AbstractExpression_children_ind.
  intros s. rewrite !GenerateTableAliasSet_node_unfold.
  case_bool_decide.
  - destruct (class_ e) as [|tbl| |]; try done.
    destruct (negb _); simpl; [|done]. f_equal.
    by rewrite (right_id_L ∅ (∪)).
  - destruct (negb _); simpl; [|done].
    by apply GenerateTableAliasSet_children_union.
Qed.

(** X18: the aliases that [GenerateTableAliasSet] adds do not depend on the
    set it is given: the result is the union of that set with the result on
    the empty set, and the faults are the same. *)
Theorem GenerateTableAliasSet_union (expr : ExprPtr) (s : gset string) :
  GenerateTableAliasSet expr s
  = (λ t, t ∪ s) <$> GenerateTableAliasSet expr ∅.
Proof.
  destruct expr as [e|]; simpl; [|done].
  apply GenerateTableAliasSet_node_union.
Qed.

(** X19: [GenerateTableAliasSet] only adds to the set, and a second run
    over the same tree adds nothing. *)
Theorem GenerateTableAliasSet_idempotent (expr : ExprPtr) (s t : gset string) :
  GenerateTableAliasSet expr s = Ok t →
  s ⊆ t ∧ GenerateTableAliasSet expr t = Ok t.
Proof.
  rewrite (GenerateTableAliasSet_union expr s),
    (GenerateTableAliasSet_union expr t).
  destruct (GenerateTableAliasSet expr ∅) as [a|f]; simpl; [|done].
  intros [= <-]. split; [apply union_subseteq_r|]. f_equal.
  by rewrite (assoc_L (∪)), (idemp_L (∪)).
Qed.

Lemma GenerateTableAliasSet_idempotent_witness :
  ({[ "v" ]} : gset string) ⊆ {[ "u"; "t"; "v" ]} ∧
  GenerateTableAliasSet (Some plus_x_uy) {[ "u"; "t"; "v" ]}
  = Ok {[ "u"; "t"; "v" ]}.
Proof.
  apply (GenerateTableAliasSet_idempotent (Some plus_x_uy) {[ "v" ]}).
  vm_compute. reflexivity.
Defined.

Lemma GenerateTableAliasSet_children_nonempty (cs : list ExprPtr)
    (s t : gset string) :
  Forall (on_child (λ x, ∀ s t, GenerateTableAliasSet_node x s = Ok t →
                                "" ∉ s → "" ∉ t)) cs →
  foldlM (λ set (child : ExprPtr), GenerateTableAliasSet child set) cs s = Ok t →
  "" ∉ s → "" ∉ t.
Proof.
  intros Hall. revert s. induction Hall as [|c cs Hc _ IH]; intros s.
  - by intros [= <-].
  - rewrite foldlM_cons. intros (s1 & Hs1 & Hrest)%bind_Ok Hs.
    destruct c as [x|]; [|done]. simpl in Hc, Hs1.
    apply (IH s1 Hrest). by apply (Hc s s1).
Qed.

Lemma GenerateTableAliasSet_node_nonempty (e : AbstractExpression)
    (s t : gset string) :
  GenerateTableAliasSet_node e s = Ok t → "" ∉ s → "" ∉ t.
Proof.
  revert s t. induction e as [e IH] using AbstractExpression_children_ind.
  intros s t. rewrite GenerateTableAliasSet_node_unfold.
  case_bool_decide.
  - destruct (class_ e) as [|tbl| |]; try done.
    case_bool_decide as Htbl; simpl; [done|].
    intros [= <-] Hs [Heq%elem_of_singleton|Hin]%elem_of_union; [|done].
    by apply Htbl.
  - destruct (negb _); simpl; [|done].
    by apply GenerateTableAliasSet_children_nonempty.
Qed.

(** X20: [GenerateTableAliasSet] never adds the empty string to the set. *)
Theorem GenerateTableAliasSet_nonempty (expr : ExprPtr) (s t : gset string) :
  GenerateTableAliasSet expr s = Ok t → "" ∉ s → "" ∉ t.
Proof.
  destruct expr as [e|]; [|done]. apply GenerateTableAliasSet_node_nonempty.
Qed.

Lemma GenerateTableAliasSet_nonempty_witness :
  "" ∉ ({[ "u"; "t"; "v" ]} : gset string).
Proof.
  apply (GenerateTableAliasSet_nonempty (Some plus_x_uy) {[ "v" ]}).
  - vm_compute. reflexivity.
  - vm_compute. intros H. discriminate H.
Defined.

(** ** Columns and aggregates *)

Lemma GetTupleAndAggregateExprs_node_unfold `{!AggregateClass}
    aggr_exprs tv_exprs expr :
  GetTupleAndAggregateExprs_node aggr_exprs tv_exprs expr =
  if IsAggregateExpression (GetExpressionType expr) then
    _ ← TERRIER_ASSERT (is_AggregateExpression expr)
          "expr should be AggregateExpresision";
    Ok (aggr_exprs ++ [expr], tv_exprs)
  else if bool_decide (GetExpressionType expr = COLUMN_VALUE) then
    if is_ColumnValueExpression expr then
      _ ← TERRIER_ASSERT (bool_decide (GetChildrenSize expr = 0%nat))
            "ColumnValueExpression should have no children";
      Ok (aggr_exprs, tv_exprs ++ [expr])
    else Fatal NullDereference
  else
    _ ← TERRIER_ASSERT
          (negb (bool_decide (GetExpressionType expr = VALUE_TUPLE)))
          "DerivedValueExpression should not exist here.";
    foldlM (λ (found : list AbstractExpression * list AbstractExpression)
              (child : ExprPtr),
              GetTupleAndAggregateExprs (fst found) (snd found) child)
      (children_ expr) (aggr_exprs, tv_exprs).
Proof.
  destruct expr as [t n a r d h cs cl]. cbn -[foldlM].
  destruct (IsAggregateExpression t); [done|].
  destruct (bool_decide (t = COLUMN_VALUE)); [done|].
  destruct (negb _); [|done]. cbn -[foldlM].
  apply foldlM_ext. by intros found [x|].
Qed.

(** Two pairs of vectors, appended componentwise. *)
Lemma GetTupleAndAggregateExprs_children_append `{!AggregateClass}
    (cs : list ExprPtr) (aggr tv : list AbstractExpression) :
  Forall (on_child (λ x, ∀ aggr tv,
            GetTupleAndAggregateExprs_node aggr tv x
            = (λ found, (aggr ++ fst found, tv ++ snd found)) <$>
              GetTupleAndAggregateExprs_node [] [] x)) cs →
  foldlM (λ (found : list AbstractExpression * list AbstractExpression)
            (child : ExprPtr),
            GetTupleAndAggregateExprs (fst found) (snd found) child)
    cs (aggr, tv)
  = (λ found, (aggr ++ fst found, tv ++ snd found)) <$>
    foldlM (λ (found : list AbstractExpression * list AbstractExpression)
              (child : ExprPtr),
              GetTupleAndAggregateExprs (fst found) (snd found) child)
      cs ([], []).
Proof.
  intros Hall. revert aggr tv. induction Hall as [|c cs Hc _ IH]; intros aggr tv.
  - simpl. by rewrite !app_nil_r.
  - rewrite !foldlM_cons. destruct c as [x|]; simpl; [|done].
    change (GetTupleAndAggregateExprs aggr tv (Some x))
      with (GetTupleAndAggregateExprs_node aggr tv x).
    change (GetTupleAndAggregateExprs [] [] (Some x))
      with (GetTupleAndAggregateExprs_node [] [] x).
    simpl in Hc. rewrite (Hc aggr tv).
    destruct (GetTupleAndAggregateExprs_node [] [] x) as [[a1 t1]|f]; simpl;
      [|done].
    rewrite (IH (aggr ++ a1) (tv ++ t1)), (IH a1 t1).
    destruct (foldlM _ cs ([], [])) as [[a2 t2]|f]; simpl; [|done].
    by rewrite !(assoc_L (++)).
Qed.

Lemma GetTupleAndAggregateExprs_node_append `{!AggregateClass}
    (aggr tv : list AbstractExpression) (e : AbstractExpression) :
  GetTupleAndAggregateExprs_node aggr tv e
  = (λ found, (aggr ++ fst found, tv ++ snd found)) <$>
    GetTupleAndAggregateExprs_node [] [] e.
Proof.
  revert aggr tv. induction e as [e IH] using AbstractExpression_children_ind.
  intros aggr tv. rewrite !GetTupleAndAggregateExprs_node_unfold.
  destruct (IsAggregateExpression _).
  { destruct (is_AggregateExpression e); simpl; [|done].
    by rewrite app_nil_r. }
  case_bool_decide.
  { destruct (is_ColumnValueExpression e); [|done].
    case_bool_decide; simpl; [|done]. by rewrite app_nil_r. }
  destruct (negb _); simpl; [|done].
  by apply GetTupleAndAggregateExprs_children_append.
Qed.

(** X21: what [GetTupleAndAggregateExprs] finds does not depend on the
    vectors it is given: the found aggregates and column references are
    appended to them, in the order of the walk, and the faults are the
    same. *)
Theorem GetTupleAndAggregateExprs_append `{!AggregateClass}
    (aggr tv : list AbstractExpression) (expr : ExprPtr) :
  GetTupleAndAggregateExprs aggr tv expr
  = (λ found, (aggr ++ fst found, tv ++ snd found)) <$>
    GetTupleAndAggregateExprs [] [] expr.
Proof.
  destruct expr as [e|]; [|done]. apply GetTupleAndAggregateExprs_node_append.
Qed.

Lemma GetTupleAndAggregateExprs_children_kinds `{!AggregateClass}
    (PA PT : AbstractExpression → Prop) (cs : list ExprPtr) :
  Forall (on_child (λ x, ∀ aggr tv a t,
            GetTupleAndAggregateExprs_node aggr tv x = Ok (a, t) →
            Forall PA aggr → Forall PT tv → Forall PA a ∧ Forall PT t)) cs →
  ∀ aggr tv a t,
    foldlM (λ (found : list AbstractExpression * list AbstractExpression)
              (child : ExprPtr),
              GetTupleAndAggregateExprs (fst found) (snd found) child)
      cs (aggr, tv) = Ok (a, t) →
    Forall PA aggr → Forall PT tv → Forall PA a ∧ Forall PT t.
Proof.
  induction 1 as [|c cs Hc _ IH]; intros aggr tv a t.
  - by intros [= <- <-].
  - rewrite foldlM_cons. intros ([a1 t1] & H1 & Hrest)%bind_Ok Ha Ht.
    destruct c as [x|]; [|done]. simpl in Hc.
    destruct (Hc aggr tv a1 t1 H1 Ha Ht) as [Ha1 Ht1].
    by apply (IH a1 t1).
Qed.

Lemma GetTupleAndAggregateExprs_node_kinds `{!AggregateClass}
    (e : AbstractExpression) (aggr tv a t : list AbstractExpression) :
  GetTupleAndAggregateExprs_node aggr tv e = Ok (a, t) →
  Forall (λ x, IsAggregateExpression (GetExpressionType x) = true ∧
               is_AggregateExpression x = true) aggr →
  Forall (λ x, GetExpressionType x = COLUMN_VALUE ∧ children_ x = [] ∧
               is_ColumnValueExpression x = true) tv →
  Forall (λ x, IsAggregateExpression (GetExpressionType x) = true ∧
               is_AggregateExpression x = true) a ∧
  Forall (λ x, GetExpressionType x = COLUMN_VALUE ∧ children_ x = [] ∧
               is_ColumnValueExpression x = true) t.
Proof.
  revert aggr tv a t. induction e as [e IH] using AbstractExpression_children_ind.
  intros aggr tv a t. rewrite GetTupleAndAggregateExprs_node_unfold.
  destruct (IsAggregateExpression _) eqn:Hagg.
  { destruct (is_AggregateExpression e) eqn:Hcast; simpl; [|done].
    intros [= <- <-] Ha Ht. split; [|done].
    apply Forall_app. split; [done|]. by repeat constructor. }
  case_bool_decide as Hcol.
  { destruct (is_ColumnValueExpression e) eqn:Hcast; [|done].
    case_bool_decide as Hsize; simpl; [|done].
    intros [= <- <-] Ha Ht. split; [done|].
    apply Forall_app. split; [done|]. constructor; [|constructor].
    split; [done|]. split; [|done].
    unfold GetChildrenSize in Hsize. by destruct (children_ e). }
  destruct (negb _); simpl; [|done].
  by apply GetTupleAndAggregateExprs_children_kinds.
Qed.

(** X22: [GetTupleAndAggregateExprs] keeps the two vectors sorted by kind:
    when the first holds nodes of an aggregate kind that are aggregate
    expressions and the second holds column references without children,
    the same is true of the vectors it returns. *)
Theorem GetTupleAndAggregateExprs_kinds `{!AggregateClass}
    (expr : ExprPtr) (aggr tv a t : list AbstractExpression) :
  GetTupleAndAggregateExprs aggr tv expr = Ok (a, t) →
  Forall (λ x, IsAggregateExpression (GetExpressionType x) = true ∧
               is_AggregateExpression x = true) aggr →
  Forall (λ x, GetExpressionType x = COLUMN_VALUE ∧ children_ x = [] ∧
               is_ColumnValueExpression x = true) tv →
  Forall (λ x, IsAggregateExpression (GetExpressionType x) = true ∧
               is_AggregateExpression x = true) a ∧
  Forall (λ x, GetExpressionType x = COLUMN_VALUE ∧ children_ x = [] ∧
               is_ColumnValueExpression x = true) t.
Proof.
  destruct expr as [e|]; [|done]. apply GetTupleAndAggregateExprs_node_kinds.
Qed.

Lemma GetTupleAndAggregateExprs_kinds_witness :
  Forall (λ x, IsAggregateExpression (GetExpressionType x) = true ∧
               @is_AggregateExpression kind_aggregates x = true) [sum_x] ∧
  Forall (λ x, GetExpressionType x = COLUMN_VALUE ∧ children_ x = [] ∧
               is_ColumnValueExpression x = true) [col_x; col_y].
Proof.
  apply (@GetTupleAndAggregateExprs_kinds kind_aggregates (Some plus_sum_y)
           [] [col_x]).
  - reflexivity.
  - constructor.
  - repeat constructor.
Defined.

(** X23: [GetAggregateExprs] appends to the vector it is given, and what it
    appends are nodes of an aggregate kind that are aggregate expressions;
    the column references below them are not looked at. *)
Theorem GetAggregateExprs_appends `{!AggregateClass}
    (expr : ExprPtr) (aggr a : list AbstractExpression) :
  GetAggregateExprs aggr expr = Ok a →
  ∃ found,
    a = aggr ++ found ∧
    GetAggregateExprs [] expr = Ok found ∧
    Forall (λ x, IsAggregateExpression (GetExpressionType x) = true ∧
                 is_AggregateExpression x = true) found.
Proof.
  unfold GetAggregateExprs. rewrite GetTupleAndAggregateExprs_append.
  destruct (GetTupleAndAggregateExprs [] [] expr) as [[found tv]|f] eqn:Hfound;
    simpl; [|done].
  intros [= <-]. exists found. do 2 (split; [done|]).
  by apply (GetTupleAndAggregateExprs_kinds expr [] [] found tv Hfound).
Qed.

Lemma GetAggregateExprs_appends_witness :
  ∃ found,
    [sum_x; sum_x] = [sum_x] ++ found ∧
    @GetAggregateExprs kind_aggregates [] (Some plus_sum_y) = Ok found ∧
    Forall (λ x, IsAggregateExpression (GetExpressionType x) = true ∧
                 @is_AggregateExpression kind_aggregates x = true) found.
Proof.
  apply (@GetAggregateExprs_appends kind_aggregates (Some plus_sum_y) [sum_x]).
  reflexivity.
Defined.

(** ** Self-comparison, classification and the enforcer *)

(** X24: the comparison of a tree with itself answers [true] when the tree
    has no null child pointer and dereferences a null pointer otherwise. *)
Theorem operator_eq_reflexive (e : AbstractExpression) :
  operator_eq e e = if null_free e then Ok true else Fatal NullDereference.
Proof.
  induction e as [e IH] using AbstractExpression_children_ind.
  rewrite operator_eq_unfold, null_free_unfold.
  rewrite !bool_decide_eq_true_2 by done. simpl.
  induction IH as [|c cs Hc _ IHcs]; simpl; [done|].
  destruct c as [x|]; simpl; [|done].
  simpl in Hc. rewrite Hc. destruct (null_free x); simpl; [|done].
  apply IHcs.
Qed.

(** No kind is both an aggregate and an operator, and reversing a
    comparison changes neither classification. *)
Lemma classification_tables (t : ExpressionType) :
  IsAggregateExpression t && IsOperatorExpression t = false ∧
  IsAggregateExpression (ReverseComparisonExpressionType t)
    = IsAggregateExpression t ∧
  IsOperatorExpression (ReverseComparisonExpressionType t)
    = IsOperatorExpression t.
Proof. by destruct t. Qed.

(** X25: the result of [EnforceProperty] does not depend on the state of
    the enforcer: what an earlier call has left in its two fields is not
    observed. *)
Theorem EnforceProperty_stateless `{!PhysicalOperators}
    (this this' : PropertyEnforcer) (gexpr : option GroupExpression)
    (property : option Property) :
  EnforceProperty this gexpr property = EnforceProperty this' gexpr property.
Proof.
  unfold EnforceProperty, Property_Accept, Visit.
  destruct property as [[cols asc]|]; simpl; [|done].
  by destruct gexpr.
Qed.

(** ** The log of the evaluation *)

Lemma warnings_appended_refl log : warnings_appended log log.
Proof. exists 0%nat. simpl. by rewrite app_nil_r. Qed.

Lemma warnings_appended_trans l1 l2 l3 :
  warnings_appended l1 l2 → warnings_appended l2 l3 → warnings_appended l1 l3.
Proof.
  intros [n ->] [m ->]. exists (n + m)%nat.
  by rewrite replicate_add, (assoc_L (++)).
Qed.

Lemma lift_Ok {A} (r : result A) log a log' :
  lift r log = Ok (a, log') → r = Ok a ∧ log' = log.
Proof. destruct r; simpl; [by intros [= -> ->]|done]. Qed.

Lemma mapM_Logged_appended {A B} (f : A → Logged B) (l : list A) :
  Forall (λ x, ∀ log y log', f x log = Ok (y, log') → warnings_appended log log') l →
  ∀ log k log', mapM f l log = Ok (k, log') → warnings_appended log log'.
Proof.
  induction 1 as [|x l Hx _ IH]; intros log k log'; simpl.
  - unfold mret, Logged_ret. intros ?. simplify_eq. apply warnings_appended_refl.
  - intros (y & log1 & Hy & Hk)%Logged_bind_Ok.
    apply Logged_bind_Ok in Hk as (k' & log2 & Hk' & Hret).
    unfold mret, Logged_ret in Hret. simplify_eq.
    eapply warnings_appended_trans; [by eapply Hx|by eapply IH].
Qed.

Lemma EvaluateExpression_pointer_appended `{!OptimizerDefs, !ChildArity}
    (expr_maps : list ExprMap) (p : ExprPtr) :
  on_child (λ e, ∀ log r log',
              EvaluateExpression_node expr_maps e log = Ok (r, log') →
              warnings_appended log log') p →
  ∀ log r log', EvaluateExpression expr_maps p log = Ok (r, log') →
                warnings_appended log log'.
Proof.
  destruct p as [e|]; simpl; [done|].
  intros _ log r log'. unfold mret, Logged_ret. intros ?. simplify_eq.
  apply warnings_appended_refl.
Qed.

Lemma EvaluateExpression_node_appended `{!OptimizerDefs, !ChildArity}
    (expr_maps : list ExprMap) (e : AbstractExpression) :
  ∀ log r log', EvaluateExpression_node expr_maps e log = Ok (r, log') →
                warnings_appended log log'.
Proof.
  induction e as [e IHcs IHcl] using AbstractExpression_full_ind.
  intros log r log'. rewrite EvaluateExpression_node_unfold.
  intros (evaluated & log1 & Hev & Hk)%Logged_bind_Ok.
  eapply warnings_appended_trans.
  { eapply mapM_Logged_appended; [|exact Hev].
    eapply Forall_impl; [exact IHcs|].
    intros p Hp. by apply EvaluateExpression_pointer_appended. }
  clear Hev IHcs. simpl in Hk.
  assert (Hrebuild : ∀ logA logB,
    (_ ← lift (TERRIER_ASSERT
                 (negb (bool_decide (GetExpressionType e = VALUE_TUPLE)))
                 "DerivedValueExpression should not be present");
     e' ← lift (CopyWithChildren e
                  (replicate (GetChildrenSize e) None ++ evaluated));
     mret (Some e')) logA = Ok (r, logB) → warnings_appended logA logB).
  { intros logA logB (u & l1 & [_ ->]%lift_Ok & H1)%Logged_bind_Ok.
    apply Logged_bind_Ok in H1 as (e' & l2 & [_ ->]%lift_Ok & Hret).
    unfold mret, Logged_ret in Hret. simplify_eq. apply warnings_appended_refl. }
  destruct (bool_decide (GetExpressionType e = COLUMN_VALUE)).
  { apply Logged_bind_Ok in Hk as (u1 & l1 & [_ ->]%lift_Ok & Hk).
    apply Logged_bind_Ok in Hk as (u2 & l2 & [_ ->]%lift_Ok & Hk).
    destruct (EvaluateExpression_find expr_maps e 0) as [[tuple_idx second]|].
    - unfold mret, Logged_ret in Hk. simplify_eq. apply warnings_appended_refl.
    - apply Logged_bind_Ok in Hk as (u3 & l3 & Hwarn & Hk).
      unfold OPTIMIZER_LOG_WARN in Hwarn. simplify_eq.
      eapply warnings_appended_trans; [by exists 1%nat|by apply Hrebuild]. }
  destruct (IsAggregateExpression _); [by apply Hrebuild|].
  destruct (bool_decide (GetExpressionType e = FUNCTION));
    [by apply Hrebuild|].
  destruct (bool_decide (GetExpressionType e = OPERATOR_CASE_EXPR));
    [|by apply Hrebuild].
  destruct (class_ e) as [| | |when_clauses default_clause];
    try by apply lift_Ok in Hk as [? _].
  destruct IHcl as [IHwc IHdef].
  apply Logged_bind_Ok in Hk as (u1 & l1 & [_ ->]%lift_Ok & Hk).
  apply Logged_bind_Ok in Hk as (clauses & l2 & Hclauses & Hk).
  apply Logged_bind_Ok in Hk as (def_cond & l3 & Hdef & Hret).
  unfold mret, Logged_ret in Hret. simplify_eq.
  eapply warnings_appended_trans;
    [|exact (EvaluateExpression_pointer_appended _ _ IHdef _ _ _ Hdef)].
  eapply mapM_Logged_appended; [|exact Hclauses].
  eapply Forall_impl; [exact IHwc|].
  intros [cond res] [Hcond Hres] logA [c' r'] logB; simpl in *.
  intros (c1 & la & Hc1 & H2)%Logged_bind_Ok.
  apply Logged_bind_Ok in H2 as (r1 & lb & Hr1 & Hret).
  unfold mret, Logged_ret in Hret. simplify_eq.
  eapply warnings_appended_trans;
    [exact (EvaluateExpression_pointer_appended _ _ Hcond _ _ _ Hc1)
    |exact (EvaluateExpression_pointer_appended _ _ Hres _ _ _ Hr1)].
Qed.

(** X26: [EvaluateExpression] only appends to the log, and what it appends
    are warnings about unbound column references. *)
Theorem EvaluateExpression_log `{!OptimizerDefs, !ChildArity}
    (expr_maps : list ExprMap) (expr r : ExprPtr) (log log' : list string) :
  EvaluateExpression expr_maps expr log = Ok (r, log') →
  ∃ n : nat, log' = log ++ replicate n unbound_warning.
Proof.
  apply EvaluateExpression_pointer_appended.
  destruct expr as [e|]; simpl; [|done].
  apply EvaluateExpression_node_appended.
Qed.

Lemma EvaluateExpression_log_witness :
  ∃ n : nat, ["earlier entry"; unbound_warning]
             = ["earlier entry"] ++ replicate n unbound_warning.
Proof.
  apply (@EvaluateExpression_log list_defs operator_arity [[(col_y, 0%N)]]
           (Some col_x) (Some col_x)).
  reflexivity.
Defined.

(** ** Positional references in a set *)

Lemma GetTupleValueExprs_node_unfold `{!OptimizerDefs} expr_set expr :
  GetTupleValueExprs_node expr_set expr =
  (expr_set ← foldlM (λ set (child : ExprPtr), GetTupleValueExprs set child)
                (children_ expr) expr_set;
   if bool_decide (GetExpressionType expr = VALUE_TUPLE)
   then ExprSet_insert expr_set (Some expr)
   else Ok expr_set).
Proof.
  destruct expr as [t n a r d h cs cl]. cbn -[foldlM].
  f_equal. apply foldlM_ext. by intros set [x|].
Qed.

Lemma no_positional_unfold e :
  no_positional e =
  negb (bool_decide (GetExpressionType e = VALUE_TUPLE)) &&
  forallb (λ c : ExprPtr,
             match c with Some x => no_positional x | None => true end)
    (children_ e).
Proof. by destruct e. Qed.

(** X27: on a tree without null child pointers and without positional
    references [GetTupleValueExprs] returns the set it was given: nothing is
    inserted, column references included. *)
Theorem GetTupleValueExprs_untouched `{!OptimizerDefs}
    (expr_set : ExprSet) (e : AbstractExpression) :
  null_free e = true → no_positional e = true →
  GetTupleValueExprs expr_set (Some e) = Ok expr_set.
Proof.
  change (GetTupleValueExprs expr_set (Some e))
    with (GetTupleValueExprs_node expr_set e).
  induction e as [e IH] using AbstractExpression_children_ind.
  rewrite null_free_unfold, no_positional_unfold, GetTupleValueExprs_node_unfold.
  intros Hnf [Hkind Hcs]%andb_true_iff.
  assert (Hloop : foldlM (λ set (child : ExprPtr), GetTupleValueExprs set child)
                    (children_ e) expr_set = Ok expr_set).
  { induction IH as [|c cs Hc _ IHcs]; [done|].
    simpl in Hnf, Hcs.
    apply andb_true_iff in Hnf as [Hnc Hnf].
    apply andb_true_iff in Hcs as [Hpc Hcs].
    rewrite foldlM_cons. destruct c as [x|]; [|done]. simpl in Hc.
    change (GetTupleValueExprs expr_set (Some x))
      with (GetTupleValueExprs_node expr_set x).
    rewrite (Hc Hnc Hpc). simpl. by apply IHcs. }
  rewrite Hloop. simpl. by destruct (bool_decide _).
Qed.

Lemma GetTupleValueExprs_untouched_witness :
  @GetTupleValueExprs list_defs [int_1] (Some plus_x_uy) = Ok [int_1].
Proof.
  apply (@GetTupleValueExprs_untouched list_defs [int_1] plus_x_uy);
    reflexivity.
Defined.
